(** * Data-Extractor: the local extraction engine

    A shallow embedding of [extractDataFromText], [parsePatterns] and
    [extractDataFromCsv], the local extraction service of the repository,
    and the properties its specification states about them.

    What is modelled, and how:
    - a string is the sequence of its UTF-16 code units; [split], [trim] and
      the global replace of the double quote are the library functions the
      source calls, with the white space and line terminators of the
      language;
    - a row and the pattern map are plain objects: their own keys are
      enumerated with the array indices first, in ascending order, then the
      other keys in the order of their creation, and an assignment to
      [__proto__] reaches the accessor of [Object.prototype] instead of
      creating a key. The source is a module, hence strict code;
    - [RegExp] is a built-in of the host. An engine is an interface: whether
      a pattern compiles with flag [i], and the first match of a compiled
      pattern in a string. The results hold for every engine. The one
      expression the source writes as a literal is modelled directly, and a
      reference engine for a fragment of the pattern language runs the
      concrete examples;
    - each extractor is the load handler of its reader: from the decoded
      text to the outcome of the promise, with the console, the only state
      the code writes to, threaded through. Reading the file, and the
      rejection when reading fails, are outside the model. *)

From Stdlib Require Import Ascii String.
From Stdlib Require Import List NArith Bool Lia Arith.
From Stdlib Require DecimalNat.
Import ListNotations.

Set Implicit Arguments.

(** ** Strings *)

(** A string value is a finite sequence of 16-bit code units. *)
Definition code_unit := N.
Definition jsstring := list code_unit.

(** Literals of the source, written in ASCII. *)
Definition js (s : string) : jsstring :=
  map N_of_ascii (list_ascii_of_string s).

Definition LF : code_unit := 10%N.
Definition CR : code_unit := 13%N.
Definition COMMA : code_unit := 44%N.
Definition COLON : code_unit := 58%N.
Definition DQUOTE : code_unit := 34%N.

Definition jsstring_eq_dec : forall a b : jsstring, {a = b} + {a <> b} :=
  list_eq_dec N.eq_dec.

(** Truthiness of a string: everything but the empty string. *)
Definition truthy (s : jsstring) : bool :=
  match s with [] => false | _ :: _ => true end.

(** [LineTerminator] of the language: LF, CR, LS, PS. *)
Definition is_line_terminator (c : code_unit) : bool :=
  ((c =? 10) || (c =? 13) || (c =? 8232) || (c =? 8233))%N.

(** [WhiteSpace] and [LineTerminator]: what [String.prototype.trim] strips. *)
Definition is_white_space (c : code_unit) : bool :=
  ((c =? 9) || (c =? 11) || (c =? 12) || (c =? 32) || (c =? 160)
   || (c =? 5760) || ((8192 <=? c) && (c <=? 8202)) || (c =? 8239)
   || (c =? 8287) || (c =? 12288) || (c =? 65279))%N
  || is_line_terminator c.

Fixpoint trimStart (s : jsstring) : jsstring :=
  match s with
  | [] => []
  | c :: s' => if is_white_space c then trimStart s' else s
  end.

Definition trimEnd (s : jsstring) : jsstring := rev (trimStart (rev s)).

(** [s.trim()] *)
Definition trim (s : jsstring) : jsstring := trimEnd (trimStart s).

(** [s.split(sep)] for a separator of one code unit: never empty, the pieces
    between consecutive separators, empty pieces kept. *)
Fixpoint split (sep : code_unit) (s : jsstring) : list jsstring :=
  match s with
  | [] => [[]]
  | c :: s' =>
      if (c =? sep)%N then [] :: split sep s'
      else match split sep s' with
           | p :: ps => (c :: p) :: ps
           | [] => [[c]]
           end
  end.

(** Splitting on LF and keeping the lines whose trimmed text is truthy. *)
Definition nonblank_lines (text : jsstring) : list jsstring :=
  filter (fun line => truthy (trim line)) (split LF text).

(** Replacing every double-quote character by nothing, as the global
    replace of the source does. *)
Definition strip_quotes (s : jsstring) : jsstring :=
  filter (fun c => negb (c =? DQUOTE)%N) s.

(** [n.toString()] for an integer [n]: its decimal numeral. *)
Fixpoint uint_units (d : Decimal.uint) : jsstring :=
  match d with
  | Decimal.Nil => []
  | Decimal.D0 d => 48%N :: uint_units d
  | Decimal.D1 d => 49%N :: uint_units d
  | Decimal.D2 d => 50%N :: uint_units d
  | Decimal.D3 d => 51%N :: uint_units d
  | Decimal.D4 d => 52%N :: uint_units d
  | Decimal.D5 d => 53%N :: uint_units d
  | Decimal.D6 d => 54%N :: uint_units d
  | Decimal.D7 d => 55%N :: uint_units d
  | Decimal.D8 d => 56%N :: uint_units d
  | Decimal.D9 d => 57%N :: uint_units d
  end.

Definition toString (n : nat) : jsstring := uint_units (Nat.to_uint n).

(** ** Plain objects used as string-keyed records *)

Definition is_digit (c : code_unit) : bool := ((48 <=? c) && (c <=? 57))%N.

Fixpoint digits_value (acc : N) (s : jsstring) : N :=
  match s with
  | [] => acc
  | c :: s' => digits_value (10 * acc + (c - 48))%N s'
  end.

(** An array index is a key that is the canonical decimal numeral of an
    integer below [2^32 - 1]: such keys are enumerated first, in ascending
    numeric order, whatever the order they were created in. *)
Definition array_index (k : jsstring) : option N :=
  match k with
  | [] => None
  | c :: rest =>
      if forallb is_digit k
         && (negb (c =? 48)%N || negb (truthy rest))
         && (digits_value 0 k <? 4294967295)%N
      then Some (digits_value 0 k)
      else None
  end.

Definition PROTO : jsstring := js "__proto__".

(** The own enumerable properties of a plain object, in the order
    [Object.keys] and [Object.entries] enumerate them. *)
Definition object (V : Type) := list (jsstring * V).

Definition keys {V} (o : object V) : list jsstring := map fst o.

Fixpoint get {V} (o : object V) (k : jsstring) : option V :=
  match o with
  | [] => None
  | (k', v) :: o' => if jsstring_eq_dec k k' then Some v else get o' k
  end.

Definition has {V} (o : object V) (k : jsstring) : bool :=
  match get o k with Some _ => true | None => false end.

Fixpoint replace_value {V} (o : object V) (k : jsstring) (v : V) : object V :=
  match o with
  | [] => []
  | (k', v') :: o' =>
      if jsstring_eq_dec k k' then (k', v) :: o'
      else (k', v') :: replace_value o' k v
  end.

(** A new array-index key goes before the first key that is not an array
    index or is a larger one. *)
Fixpoint insert_index {V} (o : object V) (n : N) (k : jsstring) (v : V)
  : object V :=
  match o with
  | [] => [(k, v)]
  | (k', v') :: o' =>
      match array_index k' with
      | Some n' =>
          if (n <? n')%N then (k, v) :: o
          else (k', v') :: insert_index o' n k v
      | None => (k, v) :: o
      end
  end.

(** Creating or overwriting the own data property [k]. *)
Definition define {V} (o : object V) (k : jsstring) (v : V) : object V :=
  if has o k then replace_value o k v
  else match array_index k with
       | Some n => insert_index o n k v
       | None => o ++ [(k, v)]
       end.

(** [row[k] = v] for a row, a plain object holding strings: the key
    [__proto__] reaches the accessor inherited from [Object.prototype], whose
    setter ignores a value that is not an object, so no property appears. *)
Definition assign (row : object jsstring) (k v : jsstring)
  : object jsstring :=
  if jsstring_eq_dec k PROTO then row else define row k v.

(** ** Regular expressions *)

(** The array a successful match returns: element 0 is the matched substring,
    element [i] the capture of group [i], undefined ([None]) when the group
    took no part in the match. An index past the last group is undefined. *)
Record MatchArray := {
  whole : jsstring;
  groups : list (option jsstring)
}.

Definition group1 (m : MatchArray) : option jsstring :=
  match groups m with
  | g :: _ => g
  | [] => None
  end.

(** The host's regular-expression engine, at the one flag the source uses:
    whether constructing a case-insensitive expression from a pattern succeeds
    (it throws a SyntaxError otherwise), and the first match of such an
    expression in a string. *)
Class RegExpEngine := {
  compiles : jsstring -> bool;
  exec_i : jsstring -> jsstring -> option MatchArray
}.

(** The two places where the source builds an expression: the constructor
    call with flag [i], and the literal with one group around any run. *)
Inductive RegExp :=
| Compiled (source : jsstring)
| DotPlus.

(** The literal matches at the first character that is not a line
    terminator and, being greedy, runs up to the next line terminator. *)
Fixpoint take_run (s : jsstring) : jsstring :=
  match s with
  | [] => []
  | c :: s' => if is_line_terminator c then [] else c :: take_run s'
  end.

Fixpoint first_run (s : jsstring) : option jsstring :=
  match s with
  | [] => None
  | c :: s' => if is_line_terminator c then first_run s' else Some (take_run s)
  end.

Definition exec_dot_plus (s : jsstring) : option MatchArray :=
  match first_run s with
  | Some run => Some {| whole := run; groups := [Some run] |}
  | None => None
  end.

(** [line.match(regex)] for an expression without the global flag. *)
Definition regexp_match `{engine : RegExpEngine} (line : jsstring)
  (regex : RegExp) : option MatchArray :=
  match regex with
  | Compiled source => exec_i source line
  | DotPlus => exec_dot_plus line
  end.

(** Names that [RegExp.prototype] defines as accessors with a getter and no
    setter. *)
Definition regexp_getters : list jsstring :=
  map js ["dotAll"; "flags"; "global"; "hasIndices"; "ignoreCase";
          "multiline"; "source"; "sticky"; "unicode"; "unicodeSets"]%string.

Definition getter_only (k : jsstring) : bool :=
  if in_dec jsstring_eq_dec k regexp_getters then true else false.

(** ** Errors, completions and promise outcomes *)

Inductive error :=
| Error (message : jsstring)
| TypeError (property : jsstring).

Inductive completion (A : Type) :=
| Normal (a : A)
| Throw (e : error).
Arguments Normal {A} a.
Arguments Throw {A} e.

(** One row of the result, and the result. *)
Definition Row := object jsstring.
Definition ExtractedData := list Row.

Inductive outcome :=
| Resolve (data : ExtractedData)
| Reject (e : error).

(** What has been written to the console so far, oldest first. *)
Definition console := list jsstring.

(** ** The pattern map under construction *)

(** The object [patterns]: its own properties and whether its prototype is
    still [Object.prototype] or has become an expression. *)
Record PatternObject := {
  proto_regexp : bool;
  own : object RegExp
}.

Definition empty_patterns : PatternObject :=
  {| proto_regexp := false; own := [] |}.

(** [patterns[k] = regex] in strict code. An own property is overwritten.
    Otherwise the prototype chain decides: [__proto__] reaches the accessor
    of [Object.prototype], which makes the expression the new prototype and
    creates nothing; once the prototype is an expression, a name that
    [RegExp.prototype] holds as a getter without setter makes the assignment
    throw; any other name becomes a new own property. *)
Definition assign_pattern (p : PatternObject) (k : jsstring) (regex : RegExp)
  : completion PatternObject :=
  if has (own p) k then
    Normal {| proto_regexp := proto_regexp p;
              own := replace_value (own p) k regex |}
  else if jsstring_eq_dec k PROTO then
    Normal {| proto_regexp := true; own := own p |}
  else if proto_regexp p && getter_only k then
    Throw (TypeError k)
  else
    Normal {| proto_regexp := proto_regexp p; own := define (own p) k regex |}.

(** ** parsePatterns *)

(** The destructuring of the trimmed pieces of a line cut at every colon:
    the first piece, and the second when there is one. *)
Definition destructure (line : jsstring) : jsstring * option jsstring :=
  match map trim (split COLON line) with
  | [] => ([], None)
  | fieldName :: [] => (fieldName, None)
  | fieldName :: pattern :: _ => (fieldName, Some pattern)
  end.

(** The pair a line declares, when both pieces are truthy. *)
Definition declaration (line : jsstring) : option (jsstring * jsstring) :=
  match destructure line with
  | (fieldName, Some pattern) =>
      if truthy fieldName && truthy pattern then Some (fieldName, pattern)
      else None
  | (_, None) => None
  end.

Definition warning (fieldName pattern : jsstring) : jsstring :=
  js "Invalid regex pattern for " ++ fieldName ++ js ": " ++ pattern.

(** The body of the loop over the lines: the try block holds both the
    construction of the expression and the assignment, and its handler
    writes the warning. *)
Definition parse_step `{engine : RegExpEngine} (st : PatternObject * console)
  (line : jsstring) : PatternObject * console :=
  let (p, out) := st in
  match declaration line with
  | Some (fieldName, pattern) =>
      if compiles pattern then
        match assign_pattern p fieldName (Compiled pattern) with
        | Normal p' => (p', out)
        | Throw _ => (p, out ++ [warning fieldName pattern])
        end
      else (p, out ++ [warning fieldName pattern])
  | None => (p, out)
  end.

Definition TEXT : jsstring := js "text".

Definition parsePatterns `{engine : RegExpEngine} (patternString : jsstring)
  (out : console) : completion (object RegExp) * console :=
  let (p, out') :=
    fold_left parse_step (nonblank_lines patternString) (empty_patterns, out)
  in
  match keys (own p) with
  | [] =>
      match assign_pattern p TEXT DotPlus with
      | Normal p' => (Normal (own p'), out')
      | Throw e => (Throw e, out')
      end
  | _ :: _ => (Normal (own p), out')
  end.

(** ** extractDataFromText *)

Definition LINE_NUMBER : jsstring := js "line_number".
Definition RAW_TEXT : jsstring := js "raw_text".

(** [match[1] || match[0]] *)
Definition capture_or_whole (m : MatchArray) : jsstring :=
  match group1 m with
  | Some g => if truthy g then g else whole m
  | None => whole m
  end.

(** The inner loop: every entry of the map, in enumeration order, against
    the line; the row built and the flag [foundData]. *)
Definition apply_patterns `{engine : RegExpEngine} (patternMap : object RegExp)
  (line : jsstring) : Row * bool :=
  fold_left
    (fun (st : Row * bool) (entry : jsstring * RegExp) =>
       match regexp_match line (snd entry) with
       | Some m => (assign (fst st) (fst entry) (capture_or_whole m), true)
       | None => st
       end)
    patternMap ([], false).

(** What the line at position [index] pushes on the result. *)
Definition line_rows `{engine : RegExpEngine} (patternMap : object RegExp)
  (index : nat) (line : jsstring) : ExtractedData :=
  let (row, foundData) := apply_patterns patternMap line in
  if foundData then
    [assign (assign row LINE_NUMBER (toString (index + 1))) RAW_TEXT line]
  else [].

Fixpoint forEach_rows `{engine : RegExpEngine} (patternMap : object RegExp)
  (index : nat) (lines : list jsstring) : ExtractedData :=
  match lines with
  | [] => []
  | line :: rest =>
      line_rows patternMap index line ++ forEach_rows patternMap (S index) rest
  end.

(** The load handler of the reader, from the decoded text to the settled
    promise, with the console threaded through. *)
Definition extractDataFromText `{engine : RegExpEngine}
  (text patterns : jsstring) (out : console) : outcome * console :=
  match nonblank_lines text with
  | [] => (Reject (Error (js "Empty file")), out)
  | lines =>
      match parsePatterns patterns out with
      | (Normal patternMap, out') =>
          (Resolve (forEach_rows patternMap 0 lines), out')
      | (Throw e, out') => (Reject e, out')
      end
  end.

(** ** extractDataFromCsv *)

(** A line cut at every comma, each piece trimmed and then freed of its
    double quotes. *)
Definition cells (line : jsstring) : list jsstring :=
  map (fun v => strip_quotes (trim v)) (split COMMA line).

(** [values[index] || the empty string] *)
Definition value_at (values : list jsstring) (index : nat) : jsstring :=
  match nth_error values index with
  | Some v => if truthy v then v else []
  | None => []
  end.

(** The loop over the headers with their positions. *)
Fixpoint fill_row (row : Row) (headers : list jsstring) (index : nat)
  (values : list jsstring) : Row :=
  match headers with
  | [] => row
  | header :: rest =>
      fill_row (assign row header (value_at values index)) rest (S index)
               values
  end.

Definition csv_row (headers : list jsstring) (line : jsstring) : Row :=
  fill_row [] headers 0 (cells line).

Definition extractDataFromCsv (text : jsstring) (out : console)
  : outcome * console :=
  match nonblank_lines text with
  | [] => (Reject (Error (js "Empty CSV file")), out)
  | first :: rest =>
      (Resolve (map (csv_row (cells first)) rest), out)
  end.

(** ** A reference engine for a fragment of the pattern language

    Literals, the dot, the escapes for digits, word characters and white
    space, bracket classes with ranges, capturing and non-capturing groups,
    alternation, the greedy quantifiers star, plus and question mark, and
    the two anchors. Patterns outside the fragment are refused. Matching is
    by backtracking, leftmost alternative and longest repetition first, as
    the language prescribes; letters are compared without case within
    ASCII. The general results below hold for every engine; this one runs
    them on concrete inputs. *)
Module Fragment.

Inductive charset :=
| CsNone
| CsChar (c : code_unit)
| CsRange (lo hi : code_unit)
| CsDigit
| CsWord
| CsSpace
| CsNot (a : charset)
| CsUnion (a b : charset).

Inductive re :=
| Empty
| Any
| Class (invert : bool) (cs : charset)
| Bol
| Eol
| Seq (a b : re)
| Alt (a b : re)
| Star (a : re)
| Group (i : nat) (a : re).

Definition is_upper (c : code_unit) : bool := ((65 <=? c) && (c <=? 90))%N.
Definition is_lower (c : code_unit) : bool := ((97 <=? c) && (c <=? 122))%N.
Definition is_word (c : code_unit) : bool :=
  is_upper c || is_lower c || is_digit c || (c =? 95)%N.

Fixpoint cs_mem (cs : charset) (c : code_unit) : bool :=
  match cs with
  | CsNone => false
  | CsChar x => (c =? x)%N
  | CsRange lo hi => ((lo <=? c) && (c <=? hi))%N
  | CsDigit => is_digit c
  | CsWord => is_word c
  | CsSpace => is_white_space c
  | CsNot a => negb (cs_mem a c)
  | CsUnion a b => cs_mem a c || cs_mem b c
  end.

(** Membership up to the case of ASCII letters. *)
Definition cs_mem_i (cs : charset) (c : code_unit) : bool :=
  cs_mem cs c
  || (is_upper c && cs_mem cs (c + 32)%N)
  || (is_lower c && cs_mem cs (c - 32)%N).

(** *** Parsing *)

Definition escape_class (c : code_unit) : option charset :=
  if (c =? 100)%N then Some CsDigit
  else if (c =? 68)%N then Some (CsNot CsDigit)
  else if (c =? 119)%N then Some CsWord
  else if (c =? 87)%N then Some (CsNot CsWord)
  else if (c =? 115)%N then Some CsSpace
  else if (c =? 83)%N then Some (CsNot CsSpace)
  else if (c =? 110)%N then Some (CsChar 10%N)
  else if (c =? 114)%N then Some (CsChar 13%N)
  else if (c =? 116)%N then Some (CsChar 9%N)
  else if is_word c then None
  else Some (CsChar c).

(** The items of a bracket class up to the closing bracket. *)
Fixpoint parse_items (fuel : nat) (s : jsstring)
  : option (charset * jsstring) :=
  match fuel with
  | O => None
  | S fuel' =>
      match s with
      | [] => None
      | c :: s1 =>
          if (c =? 93)%N then Some (CsNone, s1)
          else if (c =? 92)%N then
            match s1 with
            | [] => None
            | e :: s2 =>
                match escape_class e, parse_items fuel' s2 with
                | Some cs, Some (more, rest) => Some (CsUnion cs more, rest)
                | _, _ => None
                end
            end
          else
            match s1 with
            | d :: hi :: s3 =>
                if (d =? 45)%N && negb (hi =? 93)%N then
                  if (hi =? 92)%N || (hi <? c)%N then None
                  else
                    match parse_items fuel' s3 with
                    | Some (more, rest) =>
                        Some (CsUnion (CsRange c hi) more, rest)
                    | None => None
                    end
                else
                  match parse_items fuel' s1 with
                  | Some (more, rest) => Some (CsUnion (CsChar c) more, rest)
                  | None => None
                  end
            | _ =>
                match parse_items fuel' s1 with
                | Some (more, rest) => Some (CsUnion (CsChar c) more, rest)
                | None => None
                end
            end
      end
  end.

Definition quantifiable (r : re) : bool :=
  match r with
  | Bol | Eol => false
  | _ => true
  end.

(** An atom followed by at most one greedy quantifier. *)
Definition quantify (r : re) (s : jsstring) : option (re * jsstring) :=
  match s with
  | q :: s1 =>
      if (q =? 42)%N || (q =? 43)%N || (q =? 63)%N then
        if negb (quantifiable r) then None
        else
          match s1 with
          | l :: _ =>
              if (l =? 63)%N then None
              else if (q =? 42)%N then Some (Star r, s1)
              else if (q =? 43)%N then Some (Seq r (Star r), s1)
              else Some (Alt r Empty, s1)
          | [] =>
              if (q =? 42)%N then Some (Star r, s1)
              else if (q =? 43)%N then Some (Seq r (Star r), s1)
              else Some (Alt r Empty, s1)
          end
      else if (q =? 123)%N then None
      else Some (r, s)
  | [] => Some (r, s)
  end.

(** Recursive descent; [n] counts the capturing groups opened so far. *)
Fixpoint parse_alt (fuel : nat) (s : jsstring) (n : nat)
  : option (re * jsstring * nat) :=
  match fuel with
  | O => None
  | S fuel' =>
      match parse_seq fuel' s n with
      | Some (a, s1, n1) =>
          match s1 with
          | c :: s2 =>
              if (c =? 124)%N then
                match parse_alt fuel' s2 n1 with
                | Some (b, s3, n3) => Some (Alt a b, s3, n3)
                | None => None
                end
              else Some (a, s1, n1)
          | [] => Some (a, s1, n1)
          end
      | None => None
      end
  end
with parse_seq (fuel : nat) (s : jsstring) (n : nat)
  : option (re * jsstring * nat) :=
  match fuel with
  | O => None
  | S fuel' =>
      match s with
      | [] => Some (Empty, s, n)
      | c :: _ =>
          if (c =? 124)%N || (c =? 41)%N then Some (Empty, s, n)
          else
            match parse_atom fuel' s n with
            | Some (a, s1, n1) =>
                match quantify a s1 with
                | Some (a', s2) =>
                    match parse_seq fuel' s2 n1 with
                    | Some (b, s3, n3) => Some (Seq a' b, s3, n3)
                    | None => None
                    end
                | None => None
                end
            | None => None
            end
      end
  end
with parse_atom (fuel : nat) (s : jsstring) (n : nat)
  : option (re * jsstring * nat) :=
  match fuel with
  | O => None
  | S fuel' =>
      match s with
      | [] => None
      | c :: s1 =>
          if (c =? 40)%N then
            match s1 with
            | q :: s2 =>
                if (q =? 63)%N then
                  match s2 with
                  | k :: s3 =>
                      if (k =? 58)%N then
                        match parse_alt fuel' s3 n with
                        | Some (a, close :: s4, n4) =>
                            if (close =? 41)%N then Some (a, s4, n4) else None
                        | _ => None
                        end
                      else None
                  | [] => None
                  end
                else
                  match parse_alt fuel' s1 (S n) with
                  | Some (a, close :: s4, n4) =>
                      if (close =? 41)%N then Some (Group (S n) a, s4, n4)
                      else None
                  | _ => None
                  end
            | [] => None
            end
          else if (c =? 46)%N then Some (Any, s1, n)
          else if (c =? 94)%N then Some (Bol, s1, n)
          else if (c =? 36)%N then Some (Eol, s1, n)
          else if (c =? 92)%N then
            match s1 with
            | e :: s2 =>
                match escape_class e with
                | Some cs => Some (Class false cs, s2, n)
                | None => None
                end
            | [] => None
            end
          else if (c =? 91)%N then
            match s1 with
            | h :: s2 =>
                if (h =? 94)%N then
                  match parse_items (length s2) s2 with
                  | Some (cs, rest) => Some (Class true cs, rest, n)
                  | None => None
                  end
                else
                  match parse_items (length s1) s1 with
                  | Some (cs, rest) => Some (Class false cs, rest, n)
                  | None => None
                  end
            | [] => None
            end
          else if (c =? 42)%N || (c =? 43)%N || (c =? 63)%N
                  || (c =? 123)%N || (c =? 41)%N
          then None
          else Some (Class false (CsChar c), s1, n)
      end
  end.

(** A pattern is accepted when the descent consumes all of it. *)
Definition parse (pattern : jsstring) : option (re * nat) :=
  match parse_alt (3 * length pattern + 3) pattern 0 with
  | Some (r, [], n) => Some (r, n)
  | _ => None
  end.

(** *** Matching *)

Definition captures := list (option jsstring).

Fixpoint set_capture (i : nat) (v : option jsstring) (c : captures)
  : captures :=
  match c, i with
  | [], _ => []
  | _ :: c', O => v :: c'
  | x :: c', S i' => x :: set_capture i' v c'
  end.

Fixpoint groups_in (r : re) : list nat :=
  match r with
  | Seq a b | Alt a b => groups_in a ++ groups_in b
  | Star a => groups_in a
  | Group i a => i :: groups_in a
  | _ => []
  end.

Definition clear_captures (gs : list nat) (c : captures) : captures :=
  fold_left (fun c i => set_capture (i - 1) None c) gs c.

Section Run.

Variable input : jsstring.

Definition substring (from to : nat) : jsstring :=
  firstn (to - from) (skipn from input).

Definition continuation := nat -> captures -> option (nat * captures).

(** At most [n] more iterations of a repetition, the longest first: an
    iteration that consumed nothing is given up. *)
Fixpoint star_loop (body : nat -> captures -> continuation ->
                           option (nat * captures))
  (k : continuation) (n pos : nat) (c : captures) : option (nat * captures) :=
  match n with
  | O => k pos c
  | S n' =>
      match body pos c
                 (fun pos' c' =>
                    if pos <? pos' then star_loop body k n' pos' c'
                    else None) with
      | Some res => Some res
      | None => k pos c
      end
  end.

(** The matcher in continuation-passing style: [k] is what must still match
    from the position reached. A repetition forgets the captures of its
    body before each iteration. *)
Fixpoint run (r : re) (pos : nat) (c : captures) (k : continuation)
  {struct r} : option (nat * captures) :=
  match r with
  | Empty => k pos c
  | Any =>
      match nth_error input pos with
      | Some x => if is_line_terminator x then None else k (S pos) c
      | None => None
      end
  | Class invert cs =>
      match nth_error input pos with
      | Some x => if xorb invert (cs_mem_i cs x) then k (S pos) c else None
      | None => None
      end
  | Bol => if pos =? 0 then k pos c else None
  | Eol => if pos =? length input then k pos c else None
  | Seq a b => run a pos c (fun pos' c' => run b pos' c' k)
  | Alt a b =>
      match run a pos c k with
      | Some res => Some res
      | None => run b pos c k
      end
  | Star a =>
      star_loop
        (fun pos c k' => run a pos (clear_captures (groups_in a) c) k')
        k (length input) pos c
  | Group i a =>
      run a pos c
          (fun pos' c' => k pos' (set_capture (i - 1)
                                              (Some (substring pos pos')) c'))
  end.

(** The first start position, from [start] on, with a match. *)
Fixpoint search (r : re) (ngroups : nat) (fuel start : nat)
  : option MatchArray :=
  match run r start (repeat None ngroups) (fun pos c => Some (pos, c)) with
  | Some (stop, c) =>
      Some {| whole := substring start stop; groups := c |}
  | None =>
      match fuel with
      | O => None
      | S fuel' => search r ngroups fuel' (S start)
      end
  end.

End Run.

Definition exec (pattern input : jsstring) : option MatchArray :=
  match parse pattern with
  | Some (r, ngroups) => search input r ngroups (length input) 0
  | None => None
  end.

Definition accepts (pattern : jsstring) : bool :=
  match parse pattern with
  | Some _ => true
  | None => false
  end.

Definition engine : RegExpEngine :=
  {| compiles := accepts; exec_i := exec |}.

(** What the pattern of the default literal parses to. *)
Definition dot_plus_re : re :=
  Seq (Group 1 (Seq (Seq Any (Star Any)) Empty)) Empty.

End Fragment.

(** ** The vocabulary of the specification *)

(** Cutting a line at its first colon only, as the specification words it,
    to be compared with [destructure]. *)
Fixpoint cut_first (sep : code_unit) (s : jsstring)
  : option (jsstring * jsstring) :=
  match s with
  | [] => None
  | c :: s' =>
      if (c =? sep)%N then Some ([], s')
      else match cut_first sep s' with
           | Some (before, after) => Some (c :: before, after)
           | None => None
           end
  end.

Definition spec_declaration (line : jsstring)
  : option (jsstring * jsstring) :=
  match cut_first COLON line with
  | Some (before, after) =>
      if truthy (trim before) && truthy (trim after)
      then Some (trim before, trim after)
      else None
  | None => None
  end.

(** The declarations of a specification text, in line order, and those
    among them whose pattern the engine accepts. *)
Definition declarations_of (lines : list jsstring)
  : list (jsstring * jsstring) :=
  flat_map (fun line => match declaration line with
                        | Some d => [d]
                        | None => []
                        end) lines.

Definition compiled_of `{engine : RegExpEngine} (lines : list jsstring)
  : list (jsstring * jsstring) :=
  filter (fun d => compiles (snd d)) (declarations_of lines).

Definition compiled `{engine : RegExpEngine} (patternString : jsstring)
  : list (jsstring * jsstring) :=
  compiled_of (nonblank_lines patternString).

(** The names of a list in the order of their first occurrence, those in
    [seen] left out. *)
Fixpoint first_occurrences (seen l : list jsstring) : list jsstring :=
  match l with
  | [] => []
  | k :: l' =>
      if in_dec jsstring_eq_dec k seen then first_occurrences seen l'
      else k :: first_occurrences (k :: seen) l'
  end.

(** Whether an entry of the map matches the line, and the fields the
    matching entries contribute, in the order of the map. *)
Definition matches `{engine : RegExpEngine} (line : jsstring)
  (entry : jsstring * RegExp) : bool :=
  match regexp_match line (snd entry) with
  | Some _ => true
  | None => false
  end.

Definition matched_fields `{engine : RegExpEngine} (patternMap : object RegExp)
  (line : jsstring) : Row :=
  flat_map (fun entry : jsstring * RegExp =>
              match regexp_match line (snd entry) with
              | Some m => [(fst entry, capture_or_whole m)]
              | None => []
              end) patternMap.

(** The rows the specification describes: for each line with a matched
    field, the matched fields, then the line number, then the raw text. *)
Fixpoint described_rows `{engine : RegExpEngine} (patternMap : object RegExp)
  (index : nat) (lines : list jsstring) : ExtractedData :=
  match lines with
  | [] => []
  | line :: rest =>
      match matched_fields patternMap line with
      | [] => described_rows patternMap (S index) rest
      | fields =>
          (fields ++ [(LINE_NUMBER, toString (index + 1)); (RAW_TEXT, line)])
            :: described_rows patternMap (S index) rest
      end
  end.

(** A key that the object model treats like any other: neither an array
    index nor the name of the prototype accessor. *)
Definition plain_key (k : jsstring) : Prop :=
  array_index k = None /\ k <> PROTO.

(** What [assign_pattern] preserves: distinct own keys, none of them the
    accessor name. *)
Definition well_keyed (o : object RegExp) : Prop :=
  NoDup (keys o) /\ ~ In PROTO (keys o).

(** The accepted declarations written into an object one after the other. *)
Definition define_all (o : object RegExp) (ds : list (jsstring * jsstring))
  : object RegExp :=
  fold_left (fun o d => define o (fst d) (Compiled (snd d))) ds o.

(** The inner loop from any state. *)
Definition apply_from `{engine : RegExpEngine} (st : Row * bool)
  (patternMap : object RegExp) (line : jsstring) : Row * bool :=
  fold_left
    (fun (st : Row * bool) (entry : jsstring * RegExp) =>
       match regexp_match line (snd entry) with
       | Some m => (assign (fst st) (fst entry) (capture_or_whole m), true)
       | None => st
       end)
    patternMap st.

(** Lines joined by LF, to write texts of several lines. *)
Fixpoint join_lines (lines : list jsstring) : jsstring :=
  match lines with
  | [] => []
  | line :: rest =>
      match rest with
      | [] => line
      | _ :: _ => line ++ LF :: join_lines rest
      end
  end.

(** ** The host *)

(** What the code reads from its host besides the regular expressions: the
    text of the value that [Object.prototype] holds under a name (its
    methods and its accessor; no value for any other name), the lower-case
    form of a string, and the message of the TypeError raised for a
    property. *)
Class Host := {
  inherited_text : jsstring -> option jsstring;
  toLowerCase : jsstring -> jsstring;
  type_error_message : jsstring -> jsstring
}.

(** ** fileExporter *)

(** [pieces.join(sep)] *)
Fixpoint join (sep : jsstring) (pieces : list jsstring) : jsstring :=
  match pieces with
  | [] => []
  | piece :: rest =>
      match rest with
      | [] => piece
      | _ :: _ => piece ++ sep ++ join sep rest
      end
  end.

(** What [row[header]] evaluates to: the own string, the value found on the
    prototype, or undefined. *)
Inductive property :=
| OwnString (v : jsstring)
| FromPrototype (text : jsstring)
| Missing.

Definition lookup `{host : Host} (row : Row) (header : jsstring) : property :=
  match get row header with
  | Some v => OwnString v
  | None =>
      match inherited_text header with
      | Some text => FromPrototype text
      | None => Missing
      end
  end.

(** The empty string concatenated with the property. *)
Definition concat_text (p : property) : jsstring :=
  match p with
  | OwnString v => v
  | FromPrototype text => text
  | Missing => js "undefined"
  end.

(** [String(p || the empty string)] *)
Definition text_or_empty (p : property) : jsstring :=
  match p with
  | OwnString v => if truthy v then v else []
  | FromPrototype text => text
  | Missing => []
  end.

(** Every double quote replaced by two. *)
Definition escape_quotes (s : jsstring) : jsstring :=
  flat_map (fun c => if (c =? DQUOTE)%N then [DQUOTE; DQUOTE] else [c]) s.

(** One value of a line of the export: escaped and put between quotes. *)
Definition quoted (v : jsstring) : jsstring :=
  DQUOTE :: escape_quotes v ++ [DQUOTE].

Definition csv_value `{host : Host} (row : Row) (header : jsstring)
  : jsstring :=
  quoted (concat_text (lookup row header)).

Definition csv_line `{host : Host} (headers : list jsstring) (row : Row)
  : jsstring :=
  join [COMMA] (map (csv_value row) headers).

(** The text [csvString] for data with a first row. *)
Definition csv_string `{host : Host} (first : Row) (data : ExtractedData)
  : jsstring :=
  join [LF] (join [COMMA] (keys first) :: map (csv_line (keys first)) data).

(** What an exporter does to the page. *)
Inductive effect :=
| Download (filename content mime : jsstring)
| Alert (message : jsstring)
| ConsoleError (message : jsstring)
| WriteWorkbook (sheet : ExtractedData) (sheetName filename : jsstring).

Definition exportToCsv `{host : Host} (data : ExtractedData)
  (filename : jsstring) : list effect :=
  match data with
  | [] => []
  | first :: _ =>
      [Download (filename ++ js ".csv") (csv_string first data)
                (js "text/csv;charset=utf-8;")]
  end.

(** The library is a global of the page, loaded or not; its calls are kept
    as one effect. *)
Definition exportToXlsx (xlsx_loaded : bool) (data : ExtractedData)
  (filename : jsstring) : list effect :=
  match data with
  | [] => []
  | _ :: _ =>
      if xlsx_loaded
      then [WriteWorkbook data (js "Data") (filename ++ js ".xlsx")]
      else [Alert (js "XLSX library is not loaded. Cannot export to Excel.");
            ConsoleError
              (js "SheetJS (XLSX) library not found on window object.")]
  end.

(** The lines of one record of the report. *)
Definition rtf_field `{host : Host} (row : Row) (header : jsstring)
  : jsstring :=
  js "  " ++ header ++ js ": " ++ text_or_empty (lookup row header)
     ++ js "\par".

Definition rtf_record `{host : Host} (headers : list jsstring) (index : nat)
  (row : Row) : jsstring :=
  js "Record " ++ toString (index + 1) ++ js ":\par"
     ++ concat (map (rtf_field row) headers) ++ js "\par".

Fixpoint rtf_records `{host : Host} (headers : list jsstring) (index : nat)
  (data : ExtractedData) : jsstring :=
  match data with
  | [] => []
  | row :: rest =>
      rtf_record headers index row ++ rtf_records headers (S index) rest
  end.

(** [now] is the local date and time as the host prints it. *)
Definition createRTFContent `{host : Host} (now : jsstring)
  (data : ExtractedData) (headers : list jsstring) : jsstring :=
  js "{\rtf1\ansi\deff0 {\fonttbl {\f0 Times New Roman;}}"
     ++ js "\f0\fs24"
     ++ js "\b Extracted Data Report\b0\par"
     ++ js "Generated on: " ++ now ++ js "\par"
     ++ js "Total Records: " ++ toString (length data) ++ js "\par\par"
     ++ js "\b Data:\b0\par\par"
     ++ rtf_records headers 0 data
     ++ js "}".

(** The page built first is not used: the download is the report. *)
Definition exportToWord `{host : Host} (now : jsstring) (data : ExtractedData)
  (filename : jsstring) : list effect :=
  match data with
  | [] => []
  | first :: _ =>
      [Download (filename ++ js ".rtf")
                (createRTFContent now data (keys first))
                (js "application/rtf")]
  end.

(** ** The extractors on a file *)

(** A file as the page sees it: its name, its size in bytes, and the text a
    reader decodes from it, if reading succeeds. *)
Record File := {
  file_name : jsstring;
  file_size : N;
  file_text : option jsstring
}.

(** Why a promise of the extractors is rejected: an error thrown in the
    load handler, or the event of a failed read, which is no error object. *)
Inductive reason :=
| Thrown (e : error)
| ReadFailed.

Inductive settled :=
| Fulfilled (data : ExtractedData)
| Rejected (r : reason).

(** The reader around a load handler. *)
Definition read_with (handler : jsstring -> console -> outcome * console)
  (file : File) (out : console) : settled * console :=
  match file_text file with
  | Some text =>
      match handler text out with
      | (Resolve data, out') => (Fulfilled data, out')
      | (Reject e, out') => (Rejected (Thrown e), out')
      end
  | None => (Rejected ReadFailed, out)
  end.

(** [err.message] for an error object. *)
Definition message `{host : Host} (e : error) : jsstring :=
  match e with
  | Error m => m
  | TypeError property => type_error_message property
  end.

(** [s.endsWith(suffix)] *)
Definition endsWith (s suffix : jsstring) : bool :=
  (length suffix <=? length s)
  && if jsstring_eq_dec (skipn (length s - length suffix) s) suffix
     then true else false.

(** ** App *)

Module App.

Definition DEFAULT_PROMPT : jsstring :=
  js "Extract item, quantity, and price for each line item.".
Definition TOO_LARGE : jsstring :=
  js "File size exceeds 20MB. Please choose a smaller file.".
Definition NOTHING_SELECTED : jsstring :=
  js "Please select a file and provide extraction instructions.".
Definition NO_DATA : jsstring :=
  js "No data could be extracted. Please check your file format or try different patterns.".
Definition UNKNOWN_ERROR : jsstring :=
  js "An unknown error occurred during extraction.".

Definition SIZE_LIMIT : N := (20 * 1024 * 1024)%N.

(** The state of the component. *)
Record State := {
  file : option File;
  prompt : jsstring;
  extractedData : option ExtractedData;
  isLoading : bool;
  error : option jsstring
}.

Definition initial : State :=
  {| file := None; prompt := DEFAULT_PROMPT; extractedData := None;
     isLoading := false; error := None |}.

(** The change event of the file input carries the first selected file, if
    any. *)
Definition handleFileChange (selected : option File) (st : State) : State :=
  match selected with
  | None => st
  | Some selectedFile =>
      if (SIZE_LIMIT <? file_size selectedFile)%N then
        {| file := file st; prompt := prompt st;
           extractedData := extractedData st; isLoading := isLoading st;
           error := Some TOO_LARGE |}
      else
        {| file := Some selectedFile; prompt := prompt st;
           extractedData := None; isLoading := isLoading st;
           error := None |}
  end.

Definition setPrompt (value : jsstring) (st : State) : State :=
  {| file := file st; prompt := value; extractedData := extractedData st;
     isLoading := isLoading st; error := error st |}.

(** The extractor chosen by the name of the file. *)
Definition extract `{engine : RegExpEngine} `{host : Host} (f : File)
  (instructions : jsstring) (out : console) : settled * console :=
  if endsWith (toLowerCase (file_name f)) (js ".csv")
  then read_with extractDataFromCsv f out
  else read_with (fun text => extractDataFromText text instructions) f out.

(** The click on the extract button, up to the moment the promise has
    settled and the state updates are done. Of an error that is logged the
    console keeps the message, of the event of a failed read its text. *)
Definition handleExtract `{engine : RegExpEngine} `{host : Host} (st : State)
  (out : console) : State * console :=
  match file st with
  | None =>
      ({| file := file st; prompt := prompt st;
          extractedData := extractedData st; isLoading := isLoading st;
          error := Some NOTHING_SELECTED |}, out)
  | Some f =>
      if negb (truthy (prompt st)) then
        ({| file := file st; prompt := prompt st;
            extractedData := extractedData st; isLoading := isLoading st;
            error := Some NOTHING_SELECTED |}, out)
      else
        match extract f (prompt st) out with
        | (Fulfilled [], out') =>
            ({| file := file st; prompt := prompt st; extractedData := None;
                isLoading := false; error := Some NO_DATA |}, out')
        | (Fulfilled (row :: rows), out') =>
            ({| file := file st; prompt := prompt st;
                extractedData := Some (row :: rows);
                isLoading := false; error := None |}, out')
        | (Rejected (Thrown e), out') =>
            ({| file := file st; prompt := prompt st; extractedData := None;
                isLoading := false; error := Some (message e) |},
             out' ++ [message e])
        | (Rejected ReadFailed, out') =>
            ({| file := file st; prompt := prompt st; extractedData := None;
                isLoading := false; error := Some UNKNOWN_ERROR |},
             out' ++ [js "[object ProgressEvent]"])
        end
  end.

Definition handleReset (st : State) : State := initial.

(** The table shown: the keys of the first row as columns, and the cell of
    a row under a header. *)
Definition tableHeaders (st : State) : list jsstring :=
  match extractedData st with
  | Some (first :: _) => keys first
  | _ => []
  end.

Definition cell `{host : Host} (row : Row) (header : jsstring) : jsstring :=
  match lookup row header with
  | OwnString v => v
  | FromPrototype text => text
  | Missing => []
  end.

(** What the user can do. *)
Inductive event :=
| ChangeFile (selected : option File)
| ChangePrompt (value : jsstring)
| ClickExtract
| ClickReset
| ClickCsv
| ClickExcel
| ClickWord.

(** The parts of the page: the form while there is no data and nothing is
    loading, the error panel, the data panel. *)
Definition form_shown (st : State) : bool :=
  match extractedData st with
  | None => negb (isLoading st)
  | Some _ => false
  end.

Definition error_shown (st : State) : bool :=
  match error st with
  | Some m => truthy m && negb (isLoading st)
  | None => false
  end.

Definition data_shown (st : State) : bool :=
  match extractedData st with
  | Some _ => negb (isLoading st)
  | None => false
  end.

(** Whether the page offers the event: the controls of a part that is not
    shown do not exist, and the extract button is disabled without a file
    or without instructions. *)
Definition offered (st : State) (e : event) : bool :=
  match e with
  | ChangeFile _ | ChangePrompt _ => form_shown st
  | ClickExtract =>
      form_shown st
      && match file st with Some _ => truthy (prompt st) | None => false end
  | ClickReset => error_shown st || data_shown st
  | ClickCsv | ClickExcel | ClickWord => data_shown st
  end.

(** The world around the component: whether the spreadsheet library is
    loaded, the date as printed at the moment of an export, the console. *)
Record World := {
  xlsx_loaded : bool;
  now : jsstring;
  out : console
}.

(** The handler of an event: the next state, what is done to the page, and
    the console. *)
Definition handle `{engine : RegExpEngine} `{host : Host} (w : World)
  (st : State) (e : event) : State * list effect * console :=
  match e with
  | ChangeFile selected => (handleFileChange selected st, [], out w)
  | ChangePrompt value => (setPrompt value st, [], out w)
  | ClickExtract =>
      let (st', out') := handleExtract st (out w) in (st', [], out')
  | ClickReset => (handleReset st, [], out w)
  | ClickCsv =>
      (st, match extractedData st with
           | Some data => exportToCsv data (js "extracted_data")
           | None => []
           end, out w)
  | ClickExcel =>
      (st, match extractedData st with
           | Some data =>
               exportToXlsx (xlsx_loaded w) data (js "extracted_data")
           | None => []
           end, out w)
  | ClickWord =>
      (st, match extractedData st with
           | Some data => exportToWord (now w) data (js "extracted_data")
           | None => []
           end, out w)
  end.

(** The states the page can be in: from the initial one, by offered events,
    in any world. *)
Inductive reachable `{engine : RegExpEngine} `{host : Host} : State -> Prop :=
| reachable_initial : reachable initial
| reachable_step st w e :
    reachable st -> offered st e = true ->
    reachable (fst (fst (handle w st e))).

End App.

(** ** geminiService *)

Module Gemini.

(** The parser of the host for JSON texts (no value when it throws), the
    test for arrays, and the expression that recognises a fenced answer. *)
Class JsonHost := {
  json : Type;
  JSON_parse : jsstring -> option json;
  as_array : json -> option (list json);
  fence_match : jsstring -> option MatchArray
}.

(** What is thrown in the service: an error object made by the service
    itself, or anything the host raises (a failed request, a TypeError, a
    SyntaxError). *)
Inductive exn :=
| Err (message : jsstring)
| Foreign.

Inductive result (A : Type) :=
| Return (a : A)
| Raise (x : exn).
Arguments Return {A} a.
Arguments Raise {A} x.

Definition NON_ARRAY : jsstring :=
  js "AI returned data in a non-array format. Please check your prompt and try again.".
Definition INVALID : jsstring :=
  js "The AI returned an invalid data structure. Please try again or refine your prompt for a clearer structure.".
Definition NO_SERVICE : jsstring :=
  js "Failed to communicate with the AI service. Please check your connection and API key.".

(** [match[2]] *)
Definition group2 (m : MatchArray) : option jsstring :=
  match groups m with
  | _ :: g :: _ => g
  | _ => None
  end.

(** The text to parse: the trimmed answer, or the trimmed inside of its
    fence when the expression matches with a truthy second group. *)
Definition unfenced `{JsonHost} (text : jsstring) : jsstring :=
  let jsonStr := trim text in
  match fence_match jsonStr with
  | Some m =>
      match group2 m with
      | Some inside => if truthy inside then trim inside else jsonStr
      | None => jsonStr
      end
  | None => jsonStr
  end.

(** The inner try block and its handler. Of what a handler logs the console
    keeps the label, its first argument. *)
Definition parse_answer `{JsonHost} (jsonStr : jsstring) (out : console)
  : result (list json) * console :=
  let body :=
    match JSON_parse jsonStr with
    | Some parsedData =>
        match as_array parsedData with
        | Some items => Return items
        | None => Raise (Err NON_ARRAY)
        end
    | None => Raise Foreign
    end in
  match body with
  | Return items => (Return items, out)
  | Raise _ =>
      (Raise (Err INVALID), out ++ [js "Failed to parse JSON response:"])
  end.

(** The outer try block and its handler, from the settled request: no
    response when the request failed, no text when the response has none. *)
Definition extractDataFromFile `{JsonHost}
  (response : option (option jsstring)) (out : console)
  : result (list json) * console :=
  let body :=
    match response with
    | None => (Raise Foreign, out)
    | Some None => (Raise Foreign, out)
    | Some (Some text) => parse_answer (unfenced text) out
    end in
  match body with
  | (Return items, out') => (Return items, out')
  | (Raise _, out') =>
      (Raise (Err NO_SERVICE), out' ++ [js "Error calling Gemini API:"])
  end.

End Gemini.

(** ** More vocabulary *)

(** A text with a carriage return put before every line feed. *)
Definition crlf (text : jsstring) : jsstring :=
  flat_map (fun c => if (c =? LF)%N then [CR; LF] else [c]) text.

(** A reader of one record of comma-separated values with quoted fields:
    inside quotes two quotes stand for one and everything else for itself;
    a record ends at a line feed or at the end of the text. The field being
    read and the fields read are kept in reverse. *)
Inductive reading :=
| FieldStart
| Unquoted
| Quoted
| QuoteSeen.

Fixpoint read_record (s : jsstring) (state : reading) (field : jsstring)
  (fields : list jsstring) : option (list jsstring * jsstring) :=
  match s with
  | [] =>
      match state with
      | Quoted => None
      | _ => Some (rev (rev field :: fields), [])
      end
  | c :: s' =>
      match state with
      | FieldStart =>
          if (c =? DQUOTE)%N then read_record s' Quoted [] fields
          else if (c =? COMMA)%N
          then read_record s' FieldStart [] ([] :: fields)
          else if (c =? LF)%N then Some (rev ([] :: fields), s')
          else read_record s' Unquoted [c] fields
      | Unquoted =>
          if (c =? COMMA)%N
          then read_record s' FieldStart [] (rev field :: fields)
          else if (c =? LF)%N then Some (rev (rev field :: fields), s')
          else if (c =? DQUOTE)%N then None
          else read_record s' Unquoted (c :: field) fields
      | Quoted =>
          if (c =? DQUOTE)%N then read_record s' QuoteSeen field fields
          else read_record s' Quoted (c :: field) fields
      | QuoteSeen =>
          if (c =? DQUOTE)%N then read_record s' Quoted (DQUOTE :: field) fields
          else if (c =? COMMA)%N
          then read_record s' FieldStart [] (rev field :: fields)
          else if (c =? LF)%N then Some (rev (rev field :: fields), s')
          else None
      end
  end.

(** The next [n] records of a text. *)
Fixpoint read_records (n : nat) (s : jsstring)
  : option (list (list jsstring)) :=
  match n with
  | O => Some []
  | S n' =>
      match read_record s FieldStart [] [] with
      | Some (record, rest) =>
          match read_records n' rest with
          | Some records => Some (record :: records)
          | None => None
          end
      | None => None
      end
  end.

(** A value that a line of the delimited-text format can carry as it is: no
    comma, no line feed, no double quote. *)
Definition plain_char (c : code_unit) : bool :=
  negb ((c =? COMMA) || (c =? LF) || (c =? DQUOTE))%N.

Definition plain_value (v : jsstring) : Prop := forallb plain_char v = true.

(** The order in which an object enumerates two of its keys, the first
    before the second: array indices ascending and before the other keys. *)
Definition enumerated_before (k k' : jsstring) : bool :=
  match array_index k, array_index k' with
  | Some n, Some n' => (n <=? n')%N
  | Some _, None => true
  | None, Some _ => false
  | None, None => true
  end.

Fixpoint enumeration_order (ks : list jsstring) : bool :=
  match ks with
  | [] => true
  | k :: ks' => forallb (enumerated_before k) ks' && enumeration_order ks'
  end.

(** The association lists that stand for a plain object holding strings:
    distinct keys, none of them the accessor name, in enumeration order. *)
Definition is_object (row : Row) : Prop :=
  NoDup (keys row) /\ ~ In PROTO (keys row)
  /\ enumeration_order (keys row) = true.

(** One text occurs inside another. *)
Definition occurs_in (piece text : jsstring) : Prop :=
  exists before after, text = before ++ piece ++ after.

(** The warnings of the declarations whose pattern is refused, in the order
    of the lines. *)
Definition refused_warnings `{engine : RegExpEngine} (lines : list jsstring)
  : console :=
  map (fun d => warning (fst d) (snd d))
      (filter (fun d => negb (compiles (snd d))) (declarations_of lines)).

(** A host for the examples: the names of [Object.prototype] with texts of
    the usual form, lower case within ASCII. *)
Definition prototype_methods : list jsstring :=
  map js ["constructor"; "__defineGetter__"; "__defineSetter__";
          "hasOwnProperty"; "__lookupGetter__"; "__lookupSetter__";
          "isPrototypeOf"; "propertyIsEnumerable"; "toString"; "valueOf";
          "toLocaleString"]%string.

Definition reference_host : Host :=
  {| inherited_text k :=
       if jsstring_eq_dec k PROTO then Some (js "[object Object]")
       else if in_dec jsstring_eq_dec k prototype_methods
            then Some (js "function " ++ k ++ js "() { [native code] }")
            else None;
     toLowerCase s :=
       map (fun c => if ((65 <=? c) && (c <=? 90))%N then (c + 32)%N else c) s;
     type_error_message k :=
       js "Cannot set property " ++ k
          ++ js " of #<Object> which has only a getter" |}.

(** What holds of every state the page can be in. *)
Definition sound (st : App.State) : Prop :=
  (forall f, App.file st = Some f -> (file_size f <= App.SIZE_LIMIT)%N)
  /\ App.isLoading st = false
  /\ match App.extractedData st with
     | Some data => data <> [] /\ App.error st = None
     | None => True
     end.

(** A file, a world and a state for the examples: the state after the file
    was chosen and the extract button clicked. *)
Definition sample_file : File :=
  {| file_name := js "people.CSV";
     file_size := 27;
     file_text := Some (join_lines [js "name,age"; js "Alice,30"; js "Bob,25"])
  |}.

Definition sample_world : App.World :=
  {| App.xlsx_loaded := false;
     App.now := js "1/1/2025, 10:00:00 AM";
     App.out := [] |}.

Definition sample_state : App.State :=
  fst (fst (App.handle (engine := Fragment.engine) (host := reference_host)
              sample_world
              (fst (fst (App.handle (engine := Fragment.engine)
                           (host := reference_host) sample_world App.initial
                           (App.ChangeFile (Some sample_file)))))
              App.ClickExtract)).

Definition sample_notes : File :=
  {| file_name := js "notes.txt";
     file_size := 14;
     file_text := Some (js "no digits here") |}.

Definition sample_notes_state : App.State :=
  {| App.file := Some sample_notes;
     App.prompt := js "age: (\d+)";
     App.extractedData := None;
     App.isLoading := false;
     App.error := None |}.

(** A text between double quotes. *)
Definition in_quotes (s : jsstring) : jsstring := DQUOTE :: s ++ [DQUOTE].

(** The row of a line as the specification words it: the header names are
    the comma-split, trimmed, quote-stripped cells of the header line, every
    one of them is a key of the row and holds the value at its column, the
    empty string when the line has none; a later column replaces an earlier
    one of the same name. *)
Definition described_csv_row (first line : jsstring) : Row :=
  let headers := map (fun h => strip_quotes (trim h)) (split COMMA first) in
  let values := map (fun v => strip_quotes (trim v)) (split COMMA line) in
  fold_left (fun row ih => define row (snd ih) (nth (fst ih) values []))
            (combine (seq 0 (length headers)) headers) [].

(** ** A downloaded file read again *)

Definition is_high_surrogate (c : code_unit) : bool :=
  ((55296 <=? c) && (c <=? 56319))%N.

Definition is_low_surrogate (c : code_unit) : bool :=
  ((56320 <=? c) && (c <=? 57343))%N.

Definition REPLACEMENT : code_unit := 65533%N.
Definition BOM : code_unit := 65279%N.

(** [s.isWellFormed()]: every surrogate is one of a pair, a high one
    followed by a low one. *)
Fixpoint isWellFormed (s : jsstring) : bool :=
  match s with
  | [] => true
  | c :: s' =>
      if is_high_surrogate c then
        match s' with
        | d :: s'' => is_low_surrogate d && isWellFormed s''
        | [] => false
        end
      else negb (is_low_surrogate c) && isWellFormed s'
  end.

(** [s.toWellFormed()]: every surrogate that is not one of a pair replaced
    by U+FFFD. This is the text that the bytes of a blob made of [s] stand
    for, the blob holding the UTF-8 encoding of the scalar values of [s]. *)
Fixpoint toWellFormed (s : jsstring) : jsstring :=
  match s with
  | [] => []
  | c :: s' =>
      if is_high_surrogate c then
        match s' with
        | d :: s'' =>
            if is_low_surrogate d then c :: d :: toWellFormed s''
            else REPLACEMENT :: toWellFormed s'
        | [] => [REPLACEMENT]
        end
      else if is_low_surrogate c then REPLACEMENT :: toWellFormed s'
      else c :: toWellFormed s'
  end.

(** The text that a reader decodes from a file holding the bytes of a blob
    made of the string [s], as [download] saves it: the decoder drops a byte
    order mark at the start. *)
Definition blob_text (s : jsstring) : jsstring :=
  match toWellFormed s with
  | c :: rest => if (c =? BOM)%N then rest else c :: rest
  | [] => []
  end.

(** * Properties *)

(** ** Objects *)

Lemma has_In {V} (o : object V) k : has o k = true <-> In k (keys o).
Proof.
  unfold has. induction o as [|[k' v] o IH]; simpl.
  - split; [discriminate | tauto].
  - destruct (jsstring_eq_dec k k') as [->|Hne].
    + split; auto.
    + rewrite IH. split; [auto | intros [H|H]; congruence].
Qed.

Lemma get_None_not_In {V} (o : object V) k : get o k = None <-> ~ In k (keys o).
Proof.
  rewrite <- has_In. unfold has.
  destruct (get o k); split; intros; congruence.
Qed.

Lemma In_get {V} (o : object V) k v :
  NoDup (keys o) -> In (k, v) o -> get o k = Some v.
Proof.
  induction o as [|[k' v'] o IH]; simpl; [tauto|].
  intros Hnd [Heq|Hin].
  - inversion Heq; subst. destruct (jsstring_eq_dec k k); congruence.
  - inversion Hnd; subst. destruct (jsstring_eq_dec k k') as [->|Hne]; auto.
    exfalso. apply H1. change (In (fst (k', v)) (map fst o)). now apply in_map.
Qed.

Lemma keys_replace_value {V} (o : object V) k v :
  keys (replace_value o k v) = keys o.
Proof.
  induction o as [|[k' v'] o IH]; simpl; auto.
  destruct (jsstring_eq_dec k k'); simpl; congruence.
Qed.

Lemma get_replace_value {V} (o : object V) k v k' :
  In k (keys o) ->
  get (replace_value o k v) k' =
  if jsstring_eq_dec k k' then Some v else get o k'.
Proof.
  induction o as [|[k0 v0] o IH]; simpl; [tauto|].
  intros Hin. destruct (jsstring_eq_dec k k0) as [->|Hne]; simpl.
  - destruct (jsstring_eq_dec k' k0) as [->|Hne'].
    + destruct (jsstring_eq_dec k0 k0); congruence.
    + destruct (jsstring_eq_dec k0 k'); congruence.
  - destruct Hin as [Heq|Hin]; [congruence|].
    destruct (jsstring_eq_dec k' k0) as [->|Hne'].
    + destruct (jsstring_eq_dec k k0); congruence.
    + auto.
Qed.

Lemma keys_insert_index {V} (o : object V) n k v k' :
  In k' (keys (insert_index o n k v)) <-> k' = k \/ In k' (keys o).
Proof.
  induction o as [|[k0 v0] o IH]; simpl.
  - intuition.
  - destruct (array_index k0) as [n0|]; [destruct (n <? n0)%N|]; simpl;
      rewrite ?IH; intuition.
Qed.

Lemma NoDup_insert_index {V} (o : object V) n k v :
  ~ In k (keys o) -> NoDup (keys o) -> NoDup (keys (insert_index o n k v)).
Proof.
  induction o as [|[k0 v0] o IH]; simpl; intros Hnin Hnd.
  - constructor; auto.
  - destruct (array_index k0) as [n0|]; [destruct (n <? n0)%N|]; simpl.
    + constructor; simpl; auto.
    + inversion Hnd; subst. constructor.
      * change (~ In k0 (keys (insert_index o n k v))).
        rewrite keys_insert_index. intuition.
      * apply IH; auto.
    + constructor; simpl; auto.
Qed.

Lemma get_insert_index {V} (o : object V) n k v k' :
  ~ In k (keys o) ->
  get (insert_index o n k v) k' =
  if jsstring_eq_dec k k' then Some v else get o k'.
Proof.
  induction o as [|[k0 v0] o IH]; simpl; intros Hnin.
  - destruct (jsstring_eq_dec k' k), (jsstring_eq_dec k k'); congruence.
  - assert (Hhead : get ((k, v) :: (k0, v0) :: o) k' =
                    if jsstring_eq_dec k k' then Some v
                    else if jsstring_eq_dec k' k0 then Some v0 else get o k').
    { simpl.
      destruct (jsstring_eq_dec k' k), (jsstring_eq_dec k k'); congruence. }
    destruct (array_index k0) as [n0|]; [destruct (n <? n0)%N|]; auto.
    simpl. destruct (jsstring_eq_dec k' k0) as [->|Hne].
    + destruct (jsstring_eq_dec k k0); [intuition congruence | reflexivity].
    + apply IH. intuition.
Qed.

Lemma get_app {V} (o o' : object V) k :
  get (o ++ o') k = match get o k with Some v => Some v | None => get o' k end.
Proof.
  induction o as [|[k0 v0] o IH]; simpl; auto.
  destruct (jsstring_eq_dec k k0); auto.
Qed.

Lemma keys_app {V} (o o' : object V) : keys (o ++ o') = keys o ++ keys o'.
Proof. apply map_app. Qed.

(** Reading after [define]: the key written holds the value written, the
    others what they held. *)
Lemma get_define {V} (o : object V) k v k' :
  get (define o k v) k' = if jsstring_eq_dec k k' then Some v else get o k'.
Proof.
  unfold define. destruct (has o k) eqn:Hhas.
  - apply get_replace_value. now apply has_In.
  - assert (Hnin : ~ In k (keys o)) by (rewrite <- has_In; congruence).
    destruct (array_index k) as [n|].
    + now apply get_insert_index.
    + rewrite get_app. simpl.
      destruct (jsstring_eq_dec k k') as [<-|Hne].
      * apply get_None_not_In in Hnin. rewrite Hnin.
        destruct (jsstring_eq_dec k k); congruence.
      * destruct (jsstring_eq_dec k' k); [congruence|]. now destruct (get o k').
Qed.

Lemma keys_define {V} (o : object V) k v k' :
  In k' (keys (define o k v)) <-> k' = k \/ In k' (keys o).
Proof.
  unfold define. destruct (has o k) eqn:Hhas.
  - rewrite keys_replace_value. apply has_In in Hhas. intuition congruence.
  - destruct (array_index k) as [n|].
    + apply keys_insert_index.
    + rewrite keys_app, in_app_iff. simpl. intuition.
Qed.

Lemma NoDup_define {V} (o : object V) k v :
  NoDup (keys o) -> NoDup (keys (define o k v)).
Proof.
  intros Hnd. unfold define. destruct (has o k) eqn:Hhas.
  - now rewrite keys_replace_value.
  - assert (Hnin : ~ In k (keys o)) by (rewrite <- has_In; congruence).
    destruct (array_index k) as [n|].
    + now apply NoDup_insert_index.
    + rewrite keys_app. simpl. apply NoDup_app; auto.
      * repeat constructor. simpl. tauto.
      * intros x Hx [<-|[]]. auto.
Qed.

(** A key that is not an array index and not yet there goes last. *)
Lemma define_fresh_plain {V} (o : object V) k v :
  array_index k = None -> ~ In k (keys o) -> define o k v = o ++ [(k, v)].
Proof.
  intros Hidx Hnin. unfold define.
  destruct (has o k) eqn:Hhas; [apply has_In in Hhas; tauto|].
  now rewrite Hidx.
Qed.

Lemma keys_define_present {V} (o : object V) k v :
  In k (keys o) -> keys (define o k v) = keys o.
Proof.
  intros Hin. unfold define. apply has_In in Hin. rewrite Hin.
  apply keys_replace_value.
Qed.

Lemma get_assign (row : Row) k v k' :
  get (assign row k v) k' =
  if jsstring_eq_dec k PROTO then get row k'
  else if jsstring_eq_dec k k' then Some v else get row k'.
Proof.
  unfold assign. destruct (jsstring_eq_dec k PROTO); auto. apply get_define.
Qed.

Lemma keys_assign (row : Row) k v k' :
  In k' (keys (assign row k v)) <-> (k' = k /\ k <> PROTO) \/ In k' (keys row).
Proof.
  unfold assign. destruct (jsstring_eq_dec k PROTO) as [->|Hne].
  - intuition.
  - rewrite keys_define. intuition.
Qed.

Lemma NoDup_assign (row : Row) k v :
  NoDup (keys row) -> NoDup (keys (assign row k v)).
Proof.
  unfold assign. destruct (jsstring_eq_dec k PROTO); auto. apply NoDup_define.
Qed.

(** ** The pattern parser *)

Section Parser.

Context `{engine : RegExpEngine}.

Lemma well_keyed_nil : well_keyed [].
Proof. split; [constructor | simpl; tauto]. Qed.

Lemma assign_pattern_well_keyed p k regex p' :
  well_keyed (own p) -> assign_pattern p k regex = Normal p' ->
  well_keyed (own p').
Proof.
  intros [Hnd Hproto]. unfold assign_pattern.
  destruct (has (own p) k) eqn:Hhas.
  - intros [= <-]. simpl. unfold well_keyed.
    now rewrite keys_replace_value.
  - destruct (jsstring_eq_dec k PROTO) as [->|Hne].
    + intros [= <-]. simpl. now split.
    + destruct (proto_regexp p && getter_only k); [discriminate|].
      intros [= <-]. simpl. split.
      * now apply NoDup_define.
      * rewrite keys_define. intuition congruence.
Qed.

Lemma parse_step_well_keyed st line :
  well_keyed (own (fst st)) -> well_keyed (own (fst (parse_step st line))).
Proof.
  destruct st as [p out]. simpl. intros Hwk.
  destruct (declaration line) as [[fieldName pattern]|]; auto.
  destruct (compiles pattern); auto.
  destruct (assign_pattern p fieldName (Compiled pattern)) eqn:Ha; auto.
  simpl. eapply assign_pattern_well_keyed; eauto.
Qed.

Lemma parse_fold_well_keyed lines st :
  well_keyed (own (fst st)) ->
  well_keyed (own (fst (fold_left parse_step lines st))).
Proof.
  revert st. induction lines as [|line lines IH]; simpl; intros st Hwk; auto.
  apply IH. now apply parse_step_well_keyed.
Qed.

(** The pattern object does not depend on what the console already holds. *)
Lemma parse_step_console st1 st2 line :
  fst st1 = fst st2 ->
  fst (parse_step st1 line) = fst (parse_step st2 line).
Proof.
  destruct st1 as [p1 out1], st2 as [p2 out2]. simpl. intros <-.
  destruct (declaration line) as [[fieldName pattern]|]; auto.
  destruct (compiles pattern); auto.
  destruct (assign_pattern p1 fieldName (Compiled pattern)); auto.
Qed.

Lemma parse_fold_console lines st1 st2 :
  fst st1 = fst st2 ->
  fst (fold_left parse_step lines st1) = fst (fold_left parse_step lines st2).
Proof.
  revert st1 st2. induction lines as [|line lines IH]; simpl; auto.
  intros st1 st2 Heq. apply IH. now apply parse_step_console.
Qed.

(** Installing the default entry on an object without own keys never
    throws. *)
Lemma assign_default p :
  keys (own p) = [] ->
  assign_pattern p TEXT DotPlus =
  Normal {| proto_regexp := proto_regexp p; own := [(TEXT, DotPlus)] |}.
Proof.
  intros Hkeys. destruct p as [proto o]. simpl in *.
  destruct o; [|discriminate]. unfold assign_pattern. simpl.
  destruct (jsstring_eq_dec TEXT PROTO) as [Heq|_]; [discriminate Heq|].
  replace (getter_only TEXT) with false by reflexivity.
  now rewrite andb_false_r.
Qed.

(** The parser always returns a map, and the map does not depend on the
    console. *)
Lemma parsePatterns_fst patternString out :
  fst (parsePatterns patternString out) =
  let p := fst (fold_left parse_step (nonblank_lines patternString)
                          (empty_patterns, [])) in
  Normal (match keys (own p) with
          | [] => [(TEXT, DotPlus)]
          | _ :: _ => own p
          end).
Proof.
  unfold parsePatterns.
  pose proof (parse_fold_console (nonblank_lines patternString)
                (empty_patterns, out) (empty_patterns, []) eq_refl) as Heq.
  destruct (fold_left parse_step _ (empty_patterns, out)) as [p out'].
  simpl in Heq. rewrite <- Heq. simpl.
  destruct (keys (own p)) eqn:Hkeys; auto.
  now rewrite (assign_default p Hkeys).
Qed.

Lemma parsePatterns_normal patternString out :
  exists patternMap,
    fst (parsePatterns patternString out) = Normal patternMap
    /\ well_keyed patternMap /\ patternMap <> [].
Proof.
  rewrite parsePatterns_fst. cbv zeta.
  pose proof (parse_fold_well_keyed (nonblank_lines patternString)
                (empty_patterns, []) well_keyed_nil) as Hwk.
  destruct (fold_left parse_step _ _) as [p out']. simpl in *.
  destruct (own p) as [|e o] eqn:Hown; simpl.
  - eexists. split; [reflexivity|]. split; [|discriminate].
    split; [repeat constructor; simpl; tauto|].
    simpl. intros [H|[]]. discriminate H.
  - eexists. split; [reflexivity|]. split; [assumption | discriminate].
Qed.

(** While no accepted declaration is named like the accessor, the prototype
    stays what it was and every assignment is a [define]. *)
Lemma assign_pattern_plain p k regex :
  proto_regexp p = false -> k <> PROTO ->
  assign_pattern p k regex =
  Normal {| proto_regexp := false; own := define (own p) k regex |}.
Proof.
  intros Hproto Hne. unfold assign_pattern, define. rewrite Hproto.
  destruct (has (own p) k); auto.
  destruct (jsstring_eq_dec k PROTO); [contradiction|]. reflexivity.
Qed.

Lemma compiled_of_cons line lines :
  compiled_of (line :: lines) =
  match declaration line with
  | Some d => if compiles (snd d) then d :: compiled_of lines
              else compiled_of lines
  | None => compiled_of lines
  end.
Proof.
  unfold compiled_of, declarations_of. simpl. rewrite filter_app.
  destruct (declaration line) as [d|]; simpl; auto.
  destruct (compiles (snd d)); auto.
Qed.

Lemma parse_fold_plain lines p out :
  proto_regexp p = false ->
  ~ In PROTO (map fst (compiled_of lines)) ->
  fst (fold_left parse_step lines (p, out)) =
  {| proto_regexp := false; own := define_all (own p) (compiled_of lines) |}.
Proof.
  revert p out. induction lines as [|line lines IH]; intros p out Hproto Hnin.
  - simpl. destruct p; simpl in *. now subst.
  - rewrite compiled_of_cons in *. simpl.
    destruct (declaration line) as [[fieldName pattern]|]; simpl in *; auto.
    destruct (compiles pattern); simpl in *; auto.
    rewrite assign_pattern_plain by intuition.
    rewrite IH; simpl; auto.
Qed.

Lemma keys_define_all ds o k :
  In k (keys (define_all o ds)) <-> In k (keys o) \/ In k (map fst ds).
Proof.
  revert o. induction ds as [|d ds IH]; simpl; intros o; [tauto|].
  unfold define_all in *. simpl. rewrite IH, keys_define. intuition.
Qed.

Lemma NoDup_define_all ds o :
  NoDup (keys o) -> NoDup (keys (define_all o ds)).
Proof.
  revert o. induction ds as [|d ds IH]; simpl; intros o Hnd; auto.
  apply IH. now apply NoDup_define.
Qed.

(** Every value of the map comes from a declaration, or was there before. *)
Lemma In_define V (o : object V) k v e :
  In e (define o k v) -> e = (k, v) \/ In e o.
Proof.
  unfold define. destruct (has o k).
  - induction o as [|[k0 v0] o IH]; simpl; auto.
    destruct (jsstring_eq_dec k k0) as [->|Hne]; simpl; intuition.
  - destruct (array_index k) as [n|].
    + induction o as [|[k0 v0] o IH]; simpl; [intuition|].
      destruct (array_index k0) as [n0|]; [destruct (n <? n0)%N|]; simpl;
        intuition.
    + rewrite in_app_iff. simpl. intuition.
Qed.

Lemma In_define_all ds o k regex :
  In (k, regex) (define_all o ds) ->
  In (k, regex) o
  \/ exists pattern, regex = Compiled pattern /\ In (k, pattern) ds.
Proof.
  revert o. induction ds as [|[f pat] ds IH]; simpl; intros o Hin; auto.
  apply IH in Hin. destruct Hin as [Hin|[pattern [-> Hin]]].
  - apply In_define in Hin. simpl in Hin. destruct Hin as [[= -> ->]|Hin]; auto.
    right. exists pat. auto.
  - right. exists pattern. auto.
Qed.

Lemma first_occurrences_ext seen1 seen2 l :
  (forall k, In k seen1 <-> In k seen2) ->
  first_occurrences seen1 l = first_occurrences seen2 l.
Proof.
  revert seen1 seen2. induction l as [|k l IH]; simpl; intros s1 s2 Hext; auto.
  destruct (in_dec jsstring_eq_dec k s1) as [H1|H1],
           (in_dec jsstring_eq_dec k s2) as [H2|H2].
  - now apply IH.
  - apply Hext in H1. contradiction.
  - apply Hext in H2. contradiction.
  - f_equal. apply IH. intros x. simpl. rewrite Hext. tauto.
Qed.

(** With plain keys only, the keys of the map are the declared names in the
    order of their first declaration. *)
Lemma keys_define_all_order ds o :
  Forall (fun d => array_index (fst d) = None) ds ->
  keys (define_all o ds) = keys o ++ first_occurrences (keys o) (map fst ds).
Proof.
  revert o. induction ds as [|[f pat] ds IH]; simpl; intros o Hall.
  - now rewrite app_nil_r.
  - inversion Hall as [|? ? Hidx Hall']; subst. simpl in Hidx.
    unfold define_all in *. simpl. rewrite IH by assumption.
    destruct (in_dec jsstring_eq_dec f (keys o)) as [Hin|Hnin].
    + rewrite keys_define_present by assumption. reflexivity.
    + rewrite define_fresh_plain by assumption.
      rewrite keys_app. simpl. rewrite <- app_assoc. simpl. do 2 f_equal.
      apply first_occurrences_ext. intros x. rewrite in_app_iff. simpl.
      intuition.
Qed.

End Parser.

(** ** The pattern extractor *)

Section Extractor.

Context `{engine : RegExpEngine}.

Lemma apply_patterns_from patternMap line :
  apply_patterns patternMap line = apply_from ([], false) patternMap line.
Proof. reflexivity. Qed.

Lemma apply_from_found patternMap line st :
  snd (apply_from st patternMap line) =
  snd st || existsb (matches line) patternMap.
Proof.
  revert st. induction patternMap as [|[k regex] pm IH]; simpl; intros st.
  - now rewrite orb_false_r.
  - unfold apply_from in *. simpl. rewrite IH. unfold matches at 2. simpl.
    destruct (regexp_match line regex); simpl; auto.
    now rewrite orb_true_r.
Qed.

Lemma apply_from_other patternMap line st k :
  ~ In k (keys patternMap) ->
  get (fst (apply_from st patternMap line)) k = get (fst st) k.
Proof.
  revert st. induction patternMap as [|[k0 regex] pm IH]; simpl; intros st Hnin;
    auto.
  unfold apply_from in *. simpl. rewrite IH by tauto.
  destruct (regexp_match line regex); simpl; auto.
  rewrite get_assign. destruct (jsstring_eq_dec k0 PROTO); auto.
  destruct (jsstring_eq_dec k0 k); auto. subst. tauto.
Qed.

Lemma apply_from_get patternMap line st k regex m :
  NoDup (keys patternMap) -> ~ In PROTO (keys patternMap) ->
  In (k, regex) patternMap -> regexp_match line regex = Some m ->
  get (fst (apply_from st patternMap line)) k = Some (capture_or_whole m).
Proof.
  revert st. induction patternMap as [|[k0 regex0] pm IH]; simpl;
    intros st Hnd Hproto Hin Hm; [tauto|].
  inversion Hnd as [|? ? Hnin Hnd']; subst.
  unfold apply_from in *. simpl. destruct Hin as [[= -> ->]|Hin].
  - fold (apply_from
            (match regexp_match line regex with
             | Some m0 => (assign (fst st) k (capture_or_whole m0), true)
             | None => st
             end) pm line).
    rewrite apply_from_other by assumption. rewrite Hm. simpl.
    rewrite get_assign. destruct (jsstring_eq_dec k PROTO); [tauto|].
    destruct (jsstring_eq_dec k k); congruence.
  - apply IH; auto.
Qed.

(** With plain, distinct keys not yet in the row, the loop appends the
    matched fields in the order of the map. *)
Lemma apply_from_plain patternMap line st :
  NoDup (keys patternMap) ->
  Forall plain_key (keys patternMap) ->
  (forall k, In k (keys patternMap) -> ~ In k (keys (fst st))) ->
  fst (apply_from st patternMap line) =
  fst st ++ matched_fields patternMap line.
Proof.
  revert st. induction patternMap as [|[k regex] pm IH]; simpl;
    intros st Hnd Hplain Hfresh.
  - now rewrite app_nil_r.
  - inversion Hnd as [|? ? Hnin Hnd']; subst.
    inversion Hplain as [|? ? [Hidx Hne] Hplain']; subst.
    unfold apply_from, matched_fields in *. simpl.
    destruct (regexp_match line regex) as [m|]; simpl.
    + rewrite IH; auto; simpl.
      * unfold assign. destruct (jsstring_eq_dec k PROTO); [contradiction|].
        rewrite define_fresh_plain by auto. now rewrite <- app_assoc.
      * intros k' Hk'. rewrite keys_assign. intros [[-> _]|Hin]; [tauto|].
        revert Hin. apply Hfresh. auto.
    + apply IH; auto.
Qed.

Lemma matched_fields_nil patternMap line :
  matched_fields patternMap line = [] <->
  existsb (matches line) patternMap = false.
Proof.
  unfold matched_fields, matches.
  induction patternMap as [|[k regex] pm IH]; simpl; [tauto|].
  destruct (regexp_match line regex); simpl.
  - split; discriminate.
  - exact IH.
Qed.

Lemma keys_matched_fields patternMap line k :
  In k (keys (matched_fields patternMap line)) -> In k (keys patternMap).
Proof.
  unfold matched_fields.
  induction patternMap as [|[k0 regex] pm IH]; simpl; auto.
  unfold keys in *. rewrite map_app, in_app_iff.
  destruct (regexp_match line regex); simpl; intuition.
Qed.

(** What a line pushes: nothing when no entry matches, one row holding the
    raw text otherwise. *)
Lemma line_rows_cases patternMap index line :
  (existsb (matches line) patternMap = false
   /\ line_rows patternMap index line = [])
  \/ (existsb (matches line) patternMap = true
      /\ line_rows patternMap index line =
         [assign (assign (fst (apply_patterns patternMap line)) LINE_NUMBER
                         (toString (index + 1))) RAW_TEXT line]).
Proof.
  unfold line_rows.
  pose proof (apply_from_found patternMap line ([], false)) as Hfound.
  rewrite <- apply_patterns_from in Hfound.
  destruct (apply_patterns patternMap line) as [row found]. simpl in *.
  subst found. destruct (existsb (matches line) patternMap); auto.
Qed.

Lemma get_raw_text (row : Row) k v line :
  get (assign (assign row k v) RAW_TEXT line) RAW_TEXT = Some line.
Proof.
  rewrite get_assign.
  destruct (jsstring_eq_dec RAW_TEXT PROTO) as [Heq|_]; [discriminate Heq|].
  destruct (jsstring_eq_dec RAW_TEXT RAW_TEXT); congruence.
Qed.

Lemma forEach_rows_raw_text patternMap lines index :
  map (fun row => get row RAW_TEXT) (forEach_rows patternMap index lines) =
  map Some (filter (fun line => existsb (matches line) patternMap) lines).
Proof.
  revert index. induction lines as [|line lines IH]; simpl; intros index; auto.
  rewrite map_app, IH.
  destruct (line_rows_cases patternMap index line) as [[Hm ->]|[Hm ->]];
    rewrite Hm; simpl; auto.
  now rewrite get_raw_text.
Qed.

Lemma forEach_rows_length patternMap lines index :
  length (forEach_rows patternMap index lines) <= length lines.
Proof.
  revert index. induction lines as [|line lines IH]; simpl; intros index; auto.
  rewrite length_app. specialize (IH (S index)).
  destruct (line_rows_cases patternMap index line) as [[_ ->]|[_ ->]];
    simpl; lia.
Qed.

(** The extractor resolves with the rows of the loop whenever a line is
    left, whatever the console holds. *)
Lemma extractDataFromText_fst text patterns out :
  fst (extractDataFromText text patterns out) =
  match nonblank_lines text with
  | [] => Reject (Error (js "Empty file"))
  | lines =>
      match fst (parsePatterns patterns []) with
      | Normal patternMap => Resolve (forEach_rows patternMap 0 lines)
      | Throw e => Reject e
      end
  end.
Proof.
  unfold extractDataFromText.
  destruct (nonblank_lines text) as [|line lines]; auto.
  pose proof (parsePatterns_fst patterns out) as H1.
  pose proof (parsePatterns_fst patterns []) as H2.
  rewrite <- H2 in H1.
  destruct (parsePatterns patterns out) as [[pm|e] out'];
    simpl in H1; rewrite <- H1; reflexivity.
Qed.

End Extractor.

(** ** The delimited-text extractor *)

Lemma value_at_nth values index : value_at values index = nth index values [].
Proof.
  unfold value_at. revert index.
  induction values as [|v values IH]; intros [|index]; simpl; auto.
  now destruct v.
Qed.

Lemma keys_fill_row headers row index values k :
  In k (keys (fill_row row headers index values)) <->
  In k (keys row) \/ (In k headers /\ k <> PROTO).
Proof.
  revert row index. induction headers as [|h hs IH]; simpl; intros row index.
  - tauto.
  - rewrite IH, keys_assign. intuition (subst; auto).
Qed.

Lemma NoDup_fill_row headers row index values :
  NoDup (keys row) -> NoDup (keys (fill_row row headers index values)).
Proof.
  revert row index. induction headers as [|h hs IH]; simpl; auto.
  intros row index Hnd. apply IH. now apply NoDup_assign.
Qed.

Lemma get_fill_row_other headers row index values k :
  ~ In k headers -> get (fill_row row headers index values) k = get row k.
Proof.
  revert row index. induction headers as [|h hs IH]; simpl; auto.
  intros row index Hnin. rewrite IH by tauto. rewrite get_assign.
  destruct (jsstring_eq_dec h PROTO); auto.
  destruct (jsstring_eq_dec h k); auto. subst. tauto.
Qed.

(** A header other than the accessor name holds the value at the last
    column that bears it. *)
Lemma get_fill_row_last headers row index values j k :
  nth_error headers j = Some k -> k <> PROTO ->
  (forall j', j < j' -> nth_error headers j' <> Some k) ->
  get (fill_row row headers index values) k
  = Some (value_at values (index + j)).
Proof.
  revert row index j. induction headers as [|h hs IH]; intros row index j.
  - destruct j; discriminate.
  - destruct j as [|j]; simpl; intros Hj Hne Hlast.
    + injection Hj as ->. rewrite get_fill_row_other.
      * rewrite get_assign. destruct (jsstring_eq_dec k PROTO); [tauto|].
        destruct (jsstring_eq_dec k k); [|congruence].
        now rewrite Nat.add_0_r.
      * intros Hin. apply In_nth_error in Hin. destruct Hin as [n Hn].
        apply (Hlast (S n)); [lia | exact Hn].
    + rewrite (IH _ _ j); auto.
      * now rewrite Nat.add_succ_r.
      * intros j' Hlt. apply (Hlast (S j')). lia.
Qed.

Lemma value_at_firstn values n index :
  index < n -> value_at (firstn n values) index = value_at values index.
Proof.
  intros Hlt. unfold value_at.
  now rewrite nth_error_firstn, (proj2 (Nat.ltb_lt _ _) Hlt).
Qed.

Lemma fill_row_ext headers row index values values' :
  (forall i, index <= i < index + length headers ->
             value_at values i = value_at values' i) ->
  fill_row row headers index values = fill_row row headers index values'.
Proof.
  revert row index. induction headers as [|h hs IH]; simpl; auto.
  intros row index Hext. rewrite (Hext index) by lia.
  apply IH. intros i Hi. apply Hext. lia.
Qed.

Lemma value_at_prefix values values' n i :
  firstn n values = firstn n values' -> i < n ->
  value_at values i = value_at values' i.
Proof.
  intros Heq Hlt.
  rewrite <- (value_at_firstn values Hlt), <- (value_at_firstn values' Hlt).
  now rewrite Heq.
Qed.

(** The cell at a column, written out. *)
Lemma nth_cells line i :
  nth i (cells line) [] = strip_quotes (trim (nth i (split COMMA line) [])).
Proof.
  unfold cells.
  exact (map_nth (fun v => strip_quotes (trim v)) (split COMMA line) [] i).
Qed.

Lemma fill_row_described values : forall headers row i,
  ~ In PROTO headers ->
  fill_row row headers i values
  = fold_left (fun row ih => define row (snd ih) (nth (fst ih) values []))
              (combine (seq i (length headers)) headers) row.
Proof.
  induction headers as [|h headers IH]; intros row i Hproto; simpl; auto.
  rewrite IH by (simpl in Hproto; tauto).
  unfold assign. destruct (jsstring_eq_dec h PROTO) as [->|_].
  - exfalso. apply Hproto. now left.
  - now rewrite value_at_nth.
Qed.

(** Without a header cell named [__proto__] the row of a line is the row
    that the specification describes. *)
Lemma csv_row_as_described first line :
  ~ In PROTO (map (fun h => strip_quotes (trim h)) (split COMMA first)) ->
  csv_row (cells first) line = described_csv_row first line.
Proof.
  intros Hproto. unfold csv_row, described_csv_row.
  exact (fill_row_described (cells line) (cells first) [] 0 Hproto).
Qed.

Lemma extractDataFromCsv_fst text out :
  fst (extractDataFromCsv text out) =
  match nonblank_lines text with
  | [] => Reject (Error (js "Empty CSV file"))
  | first :: rest => Resolve (map (csv_row (cells first)) rest)
  end.
Proof. unfold extractDataFromCsv. now destruct (nonblank_lines text). Qed.

(** ** Cutting a declaration line *)

Lemma split_not_nil sep s : split sep s <> [].
Proof.
  destruct s as [|c s]; simpl; [discriminate|].
  destruct (c =? sep)%N; [discriminate|].
  destruct (split sep s); discriminate.
Qed.

Lemma split_without_separator sep s :
  count_occ N.eq_dec s sep = 0 -> split sep s = [s].
Proof.
  induction s as [|c s IH]; simpl; auto.
  destruct (N.eq_dec c sep) as [->|Hne]; [discriminate|].
  intros Hcount. apply N.eqb_neq in Hne. rewrite Hne, IH; auto.
Qed.

Lemma cut_first_None sep s :
  cut_first sep s = None <-> count_occ N.eq_dec s sep = 0.
Proof.
  induction s as [|c s IH]; simpl; [tauto|].
  destruct (N.eq_dec c sep) as [->|Hne].
  - rewrite N.eqb_refl. split; discriminate.
  - apply N.eqb_neq in Hne. rewrite Hne, <- IH.
    destruct (cut_first sep s) as [[a b]|]; split; congruence.
Qed.

Lemma cut_first_split sep s before after :
  cut_first sep s = Some (before, after) ->
  split sep s = before :: split sep after
  /\ count_occ N.eq_dec s sep = S (count_occ N.eq_dec after sep).
Proof.
  revert before.
  induction s as [|c s IH]; simpl; intros before; [discriminate|].
  destruct (N.eq_dec c sep) as [->|Hne].
  - rewrite N.eqb_refl. intros [= <- <-]. auto.
  - apply N.eqb_neq in Hne. rewrite Hne.
    destruct (cut_first sep s) as [[a b]|]; [|discriminate].
    intros [= <- <-]. destruct (IH a eq_refl) as [-> Hcount]. auto.
Qed.

(** On a line with at most one colon the parser reads what the
    specification describes. *)
Lemma declaration_single_colon line :
  count_occ N.eq_dec line COLON <= 1 ->
  declaration line = spec_declaration line.
Proof.
  intros Hcount. unfold declaration, spec_declaration, destructure.
  destruct (cut_first COLON line) as [[before after]|] eqn:Hcut.
  - apply cut_first_split in Hcut. destruct Hcut as [-> Hc].
    rewrite split_without_separator by lia. reflexivity.
  - apply cut_first_None in Hcut. now rewrite split_without_separator.
Qed.

(** On any line the parser reads the piece between the first and the second
    colon, or nothing when there is no colon. *)
Lemma declaration_second_piece line :
  declaration line =
  match cut_first COLON line with
  | Some (before, after) =>
      let pattern := trim (hd [] (split COLON after)) in
      if truthy (trim before) && truthy pattern
      then Some (trim before, pattern)
      else None
  | None => None
  end.
Proof.
  unfold declaration, destructure.
  destruct (cut_first COLON line) as [[before after]|] eqn:Hcut.
  - apply cut_first_split in Hcut. destruct Hcut as [-> _].
    pose proof (split_not_nil COLON after) as Hnil.
    simpl. destruct (split COLON after); [contradiction | reflexivity].
  - apply cut_first_None in Hcut. now rewrite split_without_separator.
Qed.

(** ** The default expression *)

Lemma take_run_all s :
  forallb (fun c => negb (is_line_terminator c)) s = true -> take_run s = s.
Proof.
  induction s as [|c s IH]; simpl; auto.
  destruct (is_line_terminator c); simpl; [discriminate|].
  intros H. now rewrite IH.
Qed.

Lemma take_run_decompose s :
  exists after,
    s = take_run s ++ after
    /\ forallb (fun c => negb (is_line_terminator c)) (take_run s) = true
    /\ (after = [] \/
        exists c rest, after = c :: rest /\ is_line_terminator c = true).
Proof.
  induction s as [|c s [after [Heq [Hrun Hafter]]]]; simpl.
  - exists []. auto.
  - destruct (is_line_terminator c) eqn:Hc.
    + exists (c :: s). simpl. split; auto. split; auto.
      right. exists c, s. auto.
    + exists after. simpl. rewrite Hc. simpl. split; [congruence|]. auto.
Qed.

Lemma first_run_decompose s run :
  first_run s = Some run ->
  exists before after,
    s = before ++ run ++ after
    /\ run <> []
    /\ forallb is_line_terminator before = true
    /\ forallb (fun c => negb (is_line_terminator c)) run = true
    /\ (after = [] \/
        exists c rest, after = c :: rest /\ is_line_terminator c = true).
Proof.
  induction s as [|c s IH]; simpl; [discriminate|].
  destruct (is_line_terminator c) eqn:Hc.
  - intros Hrun. destruct (IH Hrun) as [before [after [-> H]]].
    exists (c :: before), after. simpl. rewrite Hc. tauto.
  - intros [= <-].
    destruct (take_run_decompose s) as [after [Heq [Hrun Hafter]]].
    exists [], after. simpl. rewrite Hc. simpl.
    repeat split; auto; congruence.
Qed.

Lemma first_run_None s :
  first_run s = None <-> forallb is_line_terminator s = true.
Proof.
  induction s as [|c s IH]; simpl; [tauto|].
  destruct (is_line_terminator c); simpl; auto. split; discriminate.
Qed.

(** ** The reference engine on the pattern of the default literal *)

Module FragmentFacts.
Import Fragment.

Lemma parse_dot_plus : parse (js "(.+)") = Some (dot_plus_re, 1).
Proof. vm_compute. reflexivity. Qed.

Lemma nth_error_middle (pre suf : jsstring) :
  nth_error (pre ++ suf) (length pre) = hd_error suf.
Proof.
  rewrite nth_error_app2 by lia. rewrite Nat.sub_diag. now destruct suf.
Qed.

Lemma firstn_take_run s : firstn (length (take_run s)) s = take_run s.
Proof.
  induction s as [|c s IH]; simpl; auto.
  destruct (is_line_terminator c); simpl; congruence.
Qed.

Lemma length_take_run s : length (take_run s) <= length s.
Proof.
  induction s as [|c s IH]; simpl; auto.
  destruct (is_line_terminator c); simpl; lia.
Qed.

(** The longest repetition of the dot from a position. *)
Lemma star_any_longest suf : forall input pre n c k res,
  input = pre ++ suf ->
  length (take_run suf) <= n ->
  k (length pre + length (take_run suf)) c = Some res ->
  star_loop (fun pos c k' => run input Any pos
                                 (clear_captures (groups_in Any) c) k')
            k n (length pre) c = Some res.
Proof.
  induction suf as [|x suf IH]; intros input pre n c k res -> Hn Hk.
  - simpl in *. rewrite Nat.add_0_r in Hk.
    destruct n; simpl; auto.
    rewrite nth_error_middle. simpl. exact Hk.
  - simpl in *. destruct (is_line_terminator x) eqn:Hx.
    + simpl in *. rewrite Nat.add_0_r in Hk. destruct n; simpl; auto.
      rewrite nth_error_middle. simpl. rewrite Hx. exact Hk.
    + simpl in *. destruct n as [|n]; [lia|]. simpl.
      rewrite nth_error_middle. simpl. rewrite Hx.
      rewrite (proj2 (Nat.ltb_lt _ _)) by lia.
      replace (S (length pre)) with (length (pre ++ [x]))
        by (rewrite length_app; simpl; lia).
      rewrite (IH (pre ++ x :: suf) (pre ++ [x]) n c k res);
        [reflexivity | | lia |].
      * now rewrite <- app_assoc.
      * rewrite <- Hk. f_equal. rewrite length_app. simpl. lia.
Qed.

Lemma substring_take_run input pre suf :
  input = pre ++ suf ->
  substring input (length pre) (length pre + length (take_run suf))
  = take_run suf.
Proof.
  intros ->. unfold substring.
  rewrite skipn_app, Nat.sub_diag, skipn_all. simpl.
  replace (length pre + length (take_run suf) - length pre)
    with (length (take_run suf)) by lia.
  apply firstn_take_run.
Qed.

Lemma run_dot_plus input pre suf :
  input = pre ++ suf ->
  run input dot_plus_re (length pre) [None] (fun pos c => Some (pos, c))
  = match suf with
    | [] => None
    | x :: _ =>
        if is_line_terminator x then None
        else Some (length pre + length (take_run suf), [Some (take_run suf)])
    end.
Proof.
  intros Hinput. unfold dot_plus_re. simpl. subst input.
  rewrite nth_error_middle.
  destruct suf as [|x suf]; simpl; auto.
  destruct (is_line_terminator x) eqn:Hx; simpl; auto.
  replace (S (length pre)) with (length (pre ++ [x]))
    by (rewrite length_app; simpl; lia).
  apply (@star_any_longest suf (pre ++ x :: suf) (pre ++ [x])).
  - now rewrite <- app_assoc.
  - pose proof (length_take_run suf). rewrite !length_app. simpl. lia.
  - simpl.
    replace (length (pre ++ [x]) + length (take_run suf))
      with (length pre + length (take_run (x :: suf)))
      by (rewrite length_app; simpl; rewrite Hx; simpl; lia).
    rewrite (@substring_take_run (pre ++ x :: suf) pre (x :: suf) eq_refl).
    simpl. now rewrite Hx.
Qed.

Lemma search_dot_plus suf : forall input pre,
  input = pre ++ suf ->
  search input dot_plus_re 1 (length suf) (length pre) = exec_dot_plus suf.
Proof.
  induction suf as [|x suf IH]; intros input pre Hinput.
  - cbn [search length]. change (repeat None 1) with [@None jsstring].
    rewrite (@run_dot_plus input pre [] Hinput). reflexivity.
  - cbn [search length]. change (repeat None 1) with [@None jsstring].
    rewrite (@run_dot_plus input pre (x :: suf) Hinput).
    unfold exec_dot_plus. simpl first_run.
    destruct (is_line_terminator x) eqn:Hx.
    + replace (S (length pre)) with (length (pre ++ [x]))
        by (rewrite length_app; simpl; lia).
      rewrite (IH input (pre ++ [x])); [reflexivity|].
      now rewrite <- app_assoc.
    + rewrite (@substring_take_run input pre (x :: suf) Hinput).
      simpl. rewrite Hx. reflexivity.
Qed.

(** On the pattern of the literal the reference engine finds what
    [exec_dot_plus] describes. *)
Lemma exec_dot_plus_reference line :
  exec (js "(.+)") line = exec_dot_plus line.
Proof.
  unfold exec. rewrite parse_dot_plus.
  exact (@search_dot_plus line line [] eq_refl).
Qed.
End FragmentFacts.

Unset Implicit Arguments.

(** * The claims of the specification *)

(** C1, at the line [time: (\d+):(\d+)]. The specification keeps the whole
    remainder after the first colon as the pattern; the parser cuts the line
    at every colon and keeps the second piece only, so the pattern it
    compiles stops before the second colon. *)
Theorem C1_pattern_stops_at_second_colon :
  declaration (js "time: (\d+):(\d+)") = Some (js "time", js "(\d+)")
  /\ spec_declaration (js "time: (\d+):(\d+)")
     = Some (js "time", js "(\d+):(\d+)").
Proof. split; vm_compute; reflexivity. Qed.

(** C2, in the form that holds of the code. For every entry of the parsed
    map that matches a line, the value recorded under its field name in the
    row being built is the capture of the first group when that capture is a
    non-empty string, and the whole matched substring otherwise: when the
    expression has no group, when the group took no part in the match, and
    when it captured the empty string. The finished row still holds that
    value unless the field is named like one of the two fields added last. *)
Theorem C2_value_is_nonempty_capture_or_whole
  (engine : RegExpEngine) (patterns : jsstring) (out : console)
  (patternMap : object RegExp) (line key : jsstring) (regex : RegExp)
  (m : MatchArray) :
  fst (parsePatterns patterns out) = Normal patternMap ->
  In (key, regex) patternMap ->
  regexp_match line regex = Some m ->
  let value := match group1 m with
               | Some g => if truthy g then g else whole m
               | None => whole m
               end in
  get (fst (apply_patterns patternMap line)) key = Some value
  /\ forall index, key <> LINE_NUMBER -> key <> RAW_TEXT ->
       exists row, line_rows patternMap index line = [row]
                   /\ get row key = Some value.
Proof.
  intros Hparse Hin Hm value.
  destruct (parsePatterns_normal patterns out) as [pm [Hpm [[Hnd Hproto] _]]].
  rewrite Hparse in Hpm. injection Hpm as <-.
  assert (Hget : get (fst (apply_patterns patternMap line)) key = Some value).
  { rewrite apply_patterns_from. eapply apply_from_get; eauto. }
  split; [exact Hget|]. intros index Hln Hrt.
  destruct (line_rows_cases patternMap index line) as [[Hnone _]|[_ ->]].
  - exfalso. assert (Hex : existsb (matches line) patternMap = true).
    { apply existsb_exists. exists (key, regex). split; auto.
      unfold matches. simpl. now rewrite Hm. }
    congruence.
  - eexists. split; [reflexivity|]. rewrite !get_assign.
    destruct (jsstring_eq_dec RAW_TEXT PROTO) as [Heq|_]; [discriminate Heq|].
    destruct (jsstring_eq_dec RAW_TEXT key); [congruence|].
    destruct (jsstring_eq_dec LINE_NUMBER PROTO) as [Heq|_];
      [discriminate Heq|].
    destruct (jsstring_eq_dec LINE_NUMBER key); [congruence|]. exact Hget.
Qed.

(** C3. When no line is left after the blank ones are dropped, both
    extractors reject with their empty-input error, and nothing else
    happens: no row is produced and the console is untouched. *)
Theorem C3_empty_input_is_rejected
  (engine : RegExpEngine) (text patterns : jsstring) (out : console) :
  nonblank_lines text = [] ->
  extractDataFromText text patterns out
  = (Reject (Error (js "Empty file")), out)
  /\ extractDataFromCsv text out = (Reject (Error (js "Empty CSV file")), out).
Proof.
  intros Hempty. unfold extractDataFromText, extractDataFromCsv.
  now rewrite Hempty.
Qed.

(** C4, in the form that holds of the code. When no declaration of the
    specification text is accepted, the map is the single entry [text] with
    the default expression. That expression matches every line holding a
    character that is not a line terminator; the match, which is also its
    first capture, is the first maximal run of such characters: the whole
    line when the line holds no carriage return, line separator or paragraph
    separator, and a proper part of it otherwise. *)
Theorem C4_default_entry_matches_first_run
  (engine : RegExpEngine) (patterns : jsstring) (out : console) :
  compiled patterns = [] ->
  fst (parsePatterns patterns out) = Normal [(TEXT, DotPlus)]
  /\ (forall line,
        truthy line = true ->
        forallb (fun c => negb (is_line_terminator c)) line = true ->
        regexp_match line DotPlus
        = Some {| whole := line; groups := [Some line] |})
  /\ (forall line m,
        regexp_match line DotPlus = Some m ->
        exists before after,
          line = before ++ whole m ++ after
          /\ groups m = [Some (whole m)]
          /\ whole m <> []
          /\ forallb is_line_terminator before = true
          /\ forallb (fun c => negb (is_line_terminator c)) (whole m) = true
          /\ (after = [] \/
              exists c rest,
                after = c :: rest /\ is_line_terminator c = true))
  /\ (forall line,
        regexp_match line DotPlus = None
        <-> forallb is_line_terminator line = true).
Proof.
  intros Hnone. split; [|split; [|split]].
  - rewrite parsePatterns_fst. cbv zeta.
    rewrite parse_fold_plain; auto.
    + fold (compiled patterns). rewrite Hnone. reflexivity.
    + fold (compiled patterns). rewrite Hnone. simpl. tauto.
  - intros line Hne Hall. simpl. unfold exec_dot_plus.
    destruct line as [|c s]; [discriminate|].
    simpl in *. destruct (is_line_terminator c); [discriminate|].
    simpl in Hall. now rewrite take_run_all.
  - intros line m. simpl. unfold exec_dot_plus.
    destruct (first_run line) as [run|] eqn:Hrun; [|discriminate].
    intros [= <-]. simpl.
    destruct (first_run_decompose line Hrun) as [before [after H]].
    exists before, after. tauto.
  - intros line. simpl. unfold exec_dot_plus. rewrite <- first_run_None.
    destruct (first_run line); split; congruence.
Qed.

(** C5, in the form that holds of the code. When at least one declaration is
    accepted and none of the accepted declarations is named [__proto__], the
    keys of the map are exactly the field names of the accepted
    declarations, each once; every entry holds the expression compiled from
    a declaration of that name, so the default entry is not installed, and
    [text] is a key only when an accepted declaration bears that name. The
    pattern of a declaration is the one the parser reads. *)
Theorem C5_keys_are_accepted_names
  (engine : RegExpEngine) (patterns : jsstring) (out : console) :
  compiled patterns <> [] ->
  ~ In PROTO (map fst (compiled patterns)) ->
  exists patternMap,
    fst (parsePatterns patterns out) = Normal patternMap
    /\ (forall k, In k (keys patternMap) <-> In k (map fst (compiled patterns)))
    /\ NoDup (keys patternMap)
    /\ (forall k regex,
          In (k, regex) patternMap ->
          exists pattern,
            regex = Compiled pattern /\ In (k, pattern) (compiled patterns))
    /\ ~ In (TEXT, DotPlus) patternMap.
Proof.
  intros Hsome Hproto. rewrite parsePatterns_fst. cbv zeta.
  rewrite parse_fold_plain by auto. fold (compiled patterns). simpl.
  set (pm := define_all [] (compiled patterns)).
  assert (Hkeys : forall k,
            In k (keys pm) <-> In k (map fst (compiled patterns))).
  { intros k. unfold pm. rewrite keys_define_all. simpl. tauto. }
  assert (Hvalues : forall k regex, In (k, regex) pm ->
            exists pattern,
              regex = Compiled pattern /\ In (k, pattern) (compiled patterns)).
  { intros k regex Hin. apply In_define_all in Hin.
    destruct Hin as [[]|H]. exact H. }
  assert (Hne : keys pm <> []).
  { destruct (compiled patterns) as [|d ds] eqn:Hc; [congruence|].
    intros Hnil. specialize (Hkeys (fst d)).
    rewrite Hnil in Hkeys. simpl in Hkeys. tauto. }
  destruct (keys pm) as [|k0 ks] eqn:Hk; [congruence|]. rewrite <- Hk in *.
  exists pm. split; [reflexivity|]. split; [exact Hkeys|].
  split; [apply NoDup_define_all; constructor|]. split; [exact Hvalues|].
  intros Hin. apply Hvalues in Hin. destruct Hin as [pattern [Heq _]].
  discriminate Heq.
Qed.

(** C6. When the pattern extractor resolves, its rows stand, in order, for
    exactly the non-blank lines that some entry of the map matches (each row
    holds its line as raw text), so a line that no entry matches gives no
    row, and there are at most as many rows as non-blank lines. *)
Theorem C6_rows_are_the_matching_lines
  (engine : RegExpEngine) (text patterns : jsstring) (out : console)
  (rows : ExtractedData) :
  fst (extractDataFromText text patterns out) = Resolve rows ->
  exists patternMap,
    fst (parsePatterns patterns out) = Normal patternMap
    /\ map (fun row => get row RAW_TEXT) rows
       = map Some (filter (fun line => existsb (matches line) patternMap)
                          (nonblank_lines text))
    /\ length rows <= length (nonblank_lines text).
Proof.
  rewrite extractDataFromText_fst.
  destruct (parsePatterns_normal patterns out) as [pm [Hpm _]].
  assert (Hpm' : fst (parsePatterns patterns []) = Normal pm).
  { rewrite parsePatterns_fst in *. exact Hpm. }
  rewrite Hpm'. intros Hrows. exists pm. split; [exact Hpm|].
  destruct (nonblank_lines text) as [|line lines] eqn:Hlines; [discriminate|].
  injection Hrows as <-.
  split.
  - exact (forEach_rows_raw_text pm (line :: lines) 0).
  - exact (forEach_rows_length pm (line :: lines) 0).
Qed.

(** C7, in the form that holds of the code. With a header line and the lines
    after it, the delimited-text extractor resolves with one row per line
    after the header, in order. The header names are the pieces of the
    header line between its commas, trimmed and then freed of their double
    quotes; in each row a header name other than [__proto__] holds the value
    of the last column whose header cell is that name (the column of the
    cell itself when the header names are distinct): the piece of the line
    at that column, trimmed and freed of its double quotes, the empty string
    when the line has no piece there. *)
Theorem C7_one_row_per_line_last_column_wins
  (text : jsstring) (out : console) (first : jsstring) (rest : list jsstring) :
  nonblank_lines text = first :: rest ->
  exists rows,
    fst (extractDataFromCsv text out) = Resolve rows
    /\ length rows = length (nonblank_lines text) - 1
    /\ forall r line,
         nth_error rest r = Some line ->
         exists row,
           nth_error rows r = Some row
           /\ forall i header,
                nth_error (map (fun h => strip_quotes (trim h))
                               (split COMMA first)) i = Some header ->
                header <> PROTO ->
                (forall i', i < i' ->
                            nth_error (map (fun h => strip_quotes (trim h))
                                           (split COMMA first)) i'
                            <> Some header) ->
                get row header
                = Some (strip_quotes (trim (nth i (split COMMA line) []))).
Proof.
  intros Hlines. rewrite extractDataFromCsv_fst, Hlines.
  eexists. split; [reflexivity|]. split.
  - rewrite length_map. simpl. lia.
  - intros r line Hr. exists (csv_row (cells first) line). split.
    + rewrite nth_error_map, Hr. reflexivity.
    + intros i header Hi Hne Hlast. unfold csv_row.
      rewrite (get_fill_row_last _ _ _ _ Hi Hne Hlast).
      now rewrite value_at_nth, nth_cells.
Qed.

(** C8. The outcome of either extractor is a function of the input text
    and the specification text alone: whatever was done before, as the
    console records it, a run on the same texts gives the same rows in the
    same order, with the same keys in the same order and the same values;
    in particular a second run right after the first. *)
Theorem C8_outcome_is_independent_of_history
  (engine : RegExpEngine) (text patterns : jsstring) (out1 out2 : console) :
  fst (extractDataFromText text patterns out1)
  = fst (extractDataFromText text patterns out2)
  /\ fst (extractDataFromCsv text out1) = fst (extractDataFromCsv text out2)
  /\ fst (extractDataFromText text patterns
            (snd (extractDataFromText text patterns out1)))
     = fst (extractDataFromText text patterns out1)
  /\ fst (extractDataFromCsv text (snd (extractDataFromCsv text out1)))
     = fst (extractDataFromCsv text out1).
Proof.
  rewrite !extractDataFromText_fst, !extractDataFromCsv_fst. auto.
Qed.

(** C9, in the form that holds of the code. When every accepted declaration
    has a field name that is neither an array index nor [__proto__] nor one
    of [line_number] and [raw_text], the keys of the map are the accepted
    names in the order of their first declaration (the single default key
    when nothing was accepted), and the rows are the described ones: for
    each non-blank line that some entry matches, the matched fields in the
    order of the map, then [line_number] with the 1-based position of the
    line among the non-blank lines, in decimal, then [raw_text] with the
    line as it stands; no row for a line without a match. *)
Theorem C9_field_order_of_rows
  (engine : RegExpEngine) (text patterns : jsstring) (out : console) :
  Forall (fun d => plain_key (fst d)
                   /\ fst d <> LINE_NUMBER /\ fst d <> RAW_TEXT)
         (compiled patterns) ->
  nonblank_lines text <> [] ->
  exists patternMap,
    fst (parsePatterns patterns out) = Normal patternMap
    /\ keys patternMap
       = match compiled patterns with
         | [] => [TEXT]
         | _ :: _ => first_occurrences [] (map fst (compiled patterns))
         end
    /\ fst (extractDataFromText text patterns out)
       = Resolve (described_rows patternMap 0 (nonblank_lines text)).
Proof.
  intros Hall Hlines.
  assert (Hproto : ~ In PROTO (map fst (compiled patterns))).
  { intros Hin. apply in_map_iff in Hin. destruct Hin as [d [Hd Hin]].
    rewrite Forall_forall in Hall. destruct (Hall d Hin) as [[_ H] _]. auto. }
  assert (Hidx : Forall (fun d => array_index (fst d) = None)
                        (compiled patterns)).
  { eapply Forall_impl; [|exact Hall]. intros d [[H _] _]. exact H. }
  set (pm := match keys (define_all [] (compiled patterns)) with
             | [] => [(TEXT, DotPlus)]
             | _ :: _ => define_all [] (compiled patterns)
             end).
  assert (Hparse : forall o, fst (parsePatterns patterns o) = Normal pm).
  { intros o. rewrite parsePatterns_fst. cbv zeta.
    rewrite parse_fold_plain by auto. reflexivity. }
  assert (Hkeys : keys pm
                  = match compiled patterns with
                    | [] => [TEXT]
                    | _ :: _ =>
                        first_occurrences [] (map fst (compiled patterns))
                    end).
  { unfold pm. pose proof (keys_define_all_order [] Hidx) as Hk.
    simpl in Hk. revert Hk.
    destruct (compiled patterns) as [|d ds]; simpl; auto.
    intros Hk. rewrite Hk. exact Hk. }
  assert (Hgood : forall k, In k (keys pm) ->
                    plain_key k /\ k <> LINE_NUMBER /\ k <> RAW_TEXT).
  { intros k Hk. unfold pm in Hk.
    destruct (keys (define_all [] (compiled patterns))) eqn:Hd.
    - simpl in Hk. destruct Hk as [<-|[]].
      repeat split; try discriminate; reflexivity.
    - rewrite keys_define_all in Hk. destruct Hk as [[]|Hk].
      apply in_map_iff in Hk. destruct Hk as [d [<- Hin]].
      rewrite Forall_forall in Hall. auto. }
  assert (Hnd : NoDup (keys pm)).
  { destruct (parsePatterns_normal patterns out) as [pm' [Hpm' [[H _] _]]].
    rewrite Hparse in Hpm'. now injection Hpm' as <-. }
  exists pm. split; [apply Hparse|]. split; [exact Hkeys|].
  rewrite extractDataFromText_fst, Hparse.
  destruct (nonblank_lines text) as [|line0 lines0]; [congruence|].
  f_equal. generalize (line0 :: lines0) as lines. generalize 0 as index.
  intros index lines. revert index.
  induction lines as [|line lines IH]; simpl; intros index; auto.
  rewrite IH.
  destruct (line_rows_cases pm index line) as [[Hm ->]|[Hm ->]].
  - apply matched_fields_nil in Hm. now rewrite Hm.
  - rewrite apply_patterns_from, apply_from_plain; auto.
    + simpl.
      assert (Hfields : forall k, In k (keys (matched_fields pm line)) ->
                          k <> LINE_NUMBER /\ k <> RAW_TEXT).
      { intros k Hk. apply keys_matched_fields in Hk.
        apply Hgood in Hk. tauto. }
      destruct (matched_fields pm line) as [|f fs] eqn:Hf.
      * apply matched_fields_nil in Hf. congruence.
      * simpl. f_equal. unfold assign.
        destruct (jsstring_eq_dec LINE_NUMBER PROTO) as [Heq|_];
          [discriminate Heq|].
        destruct (jsstring_eq_dec RAW_TEXT PROTO) as [Heq|_];
          [discriminate Heq|].
        rewrite (define_fresh_plain (f :: fs)); [|reflexivity|].
        -- rewrite define_fresh_plain; [|reflexivity|].
           ++ now rewrite <- app_assoc.
           ++ rewrite keys_app, in_app_iff. simpl.
              intros [Hin|[Heq|[]]]; [|discriminate Heq].
              apply Hfields in Hin. tauto.
        -- intros Hin. apply Hfields in Hin. tauto.
    + rewrite Forall_forall. intros k Hk. apply Hgood in Hk. tauto.
Qed.

(** What the rows of the delimited-text extractor hold, whatever the header
    cells are: the keys of a row are header names, each once, and every
    header name but [__proto__] is a key; the row depends only on as many
    values of its line as there are header cells, the values beyond being
    discarded; and a header name other than [__proto__] that occurs in
    several columns holds the value of the last of them. *)
Lemma rows_hold_the_header_names
  (text : jsstring) (out : console) (first : jsstring) (rest : list jsstring)
  (rows : ExtractedData) :
  nonblank_lines text = first :: rest ->
  fst (extractDataFromCsv text out) = Resolve rows ->
  let headers := cells first in
  rows = map (csv_row headers) rest
  /\ (forall row,
        In row rows ->
        NoDup (keys row)
        /\ forall k, In k (keys row) <-> In k headers /\ k <> PROTO)
  /\ (forall line line',
        firstn (length headers) (cells line)
        = firstn (length headers) (cells line') ->
        csv_row headers line = csv_row headers line')
  /\ (forall line i j header,
        i < j ->
        nth_error headers i = Some header ->
        nth_error headers j = Some header ->
        header <> PROTO ->
        (forall j', j < j' -> nth_error headers j' <> Some header) ->
        get (csv_row headers line) header = Some (nth j (cells line) [])).
Proof.
  intros Hlines. rewrite extractDataFromCsv_fst, Hlines. intros [= <-] headers.
  split; [reflexivity|]. split; [|split].
  - intros row Hin. apply in_map_iff in Hin. destruct Hin as [line [<- _]].
    unfold csv_row. split.
    + apply NoDup_fill_row. constructor.
    + intros k. rewrite keys_fill_row. simpl. tauto.
  - intros line line' Heq. unfold csv_row. apply fill_row_ext.
    intros i Hi. eapply value_at_prefix; [exact Heq | simpl in Hi; lia].
  - intros line i j header _ _ Hj Hne Hlast. unfold csv_row.
    rewrite (get_fill_row_last _ _ _ _ Hj Hne Hlast).
    now rewrite value_at_nth.
Qed.

(** C10, at the header line [__proto__,b] and the line [1,2]. The
    specification gives every row the header names as its keys, here
    [__proto__] and [b], each with the value at its column; the row that
    the extractor builds has the key [b] only: the assignment under
    [__proto__] reaches the accessor inherited from [Object.prototype] and
    creates no key. The same happens with blanks and quotes around the
    cells and a value beyond the header cells. *)
Theorem C10_proto_header_creates_no_key :
  map (fun h => strip_quotes (trim h)) (split COMMA (js "__proto__,b"))
  = [PROTO; js "b"]
  /\ fst (extractDataFromCsv (join_lines [js "__proto__,b"; js "1,2"]) [])
     = Resolve [[(js "b", js "2")]]
  /\ described_csv_row (js "__proto__,b") (js "1,2")
     = [(PROTO, js "1"); (js "b", js "2")]
  /\ fst (extractDataFromCsv
            (join_lines [in_quotes (js "__proto__") ++ js " , b";
                         js "1, " ++ in_quotes (js "2") ++ js " ,3"]) [])
     = Resolve [[(js "b", js "2")]]
  /\ described_csv_row (in_quotes (js "__proto__") ++ js " , b")
                       (js "1, " ++ in_quotes (js "2") ++ js " ,3")
     = [(PROTO, js "1"); (js "b", js "2")].
Proof. repeat split; vm_compute; reflexivity. Qed.

(** * The claims on concrete inputs *)

(** The two worked examples of the specification, run on the model. *)
Example pattern_extractor_example :
  fst (extractDataFromText (engine := Fragment.engine)
         (join_lines [js "Alice,30"; js "Bob,25"])
         (join_lines [js "name: (\w+)"; js "age: (\d+)"]) [])
  = Resolve
      [[(js "name", js "Alice"); (js "age", js "30");
        (LINE_NUMBER, js "1"); (RAW_TEXT, js "Alice,30")];
       [(js "name", js "Bob"); (js "age", js "25");
        (LINE_NUMBER, js "2"); (RAW_TEXT, js "Bob,25")]].
Proof. vm_compute. reflexivity. Qed.

Example delimited_extractor_example :
  fst (extractDataFromCsv (join_lines [js "a,b"; js "1,2"; js "3,4"]) [])
  = Resolve [[(js "a", js "1"); (js "b", js "2")];
             [(js "a", js "3"); (js "b", js "4")]].
Proof. vm_compute. reflexivity. Qed.

(** C2 at the pattern [a(b?)] and the line [a]: the first group captures
    the empty string, and the theorem gives the whole match as the value. *)
Lemma C2_value_at_empty_capture :
  get (fst (apply_patterns (engine := Fragment.engine)
              [(js "v", Compiled (js "a(b?)"))] (js "a")))
      (js "v")
  = Some (js "a").
Proof.
  apply (C2_value_is_nonempty_capture_or_whole Fragment.engine
           (js "v: a(b?)") [] [(js "v", Compiled (js "a(b?)"))]
           (js "a") (js "v") (Compiled (js "a(b?)"))
           {| whole := js "a"; groups := [Some []] |}).
  - vm_compute. reflexivity.
  - simpl. left. reflexivity.
  - vm_compute. reflexivity.
Defined.

(** C2 as the specification states it fails there: the group captured the
    empty string, and the row holds the whole match instead. *)
Lemma C2_empty_capture_is_not_recorded :
  exists m row,
    regexp_match (engine := Fragment.engine) (js "a") (Compiled (js "a(b?)"))
    = Some m
    /\ group1 m = Some []
    /\ fst (extractDataFromText (engine := Fragment.engine)
              (js "a") (js "v: a(b?)") [])
       = Resolve [row]
    /\ get row (js "v") = Some (js "a")
    /\ get row (js "v") <> group1 m.
Proof.
  exists {| whole := js "a"; groups := [Some []] |}.
  exists [(js "v", js "a"); (LINE_NUMBER, js "1"); (RAW_TEXT, js "a")].
  repeat split; try (vm_compute; reflexivity).
  vm_compute. discriminate.
Qed.

(** C3 at a text of two lines of spaces. *)
Lemma C3_blank_text_is_rejected :
  nonblank_lines (join_lines [js "  "; js " "]) = []
  /\ extractDataFromText (engine := Fragment.engine)
       (join_lines [js "  "; js " "]) (js "name: (\w+)") []
     = (Reject (Error (js "Empty file")), [])
  /\ extractDataFromCsv (join_lines [js "  "; js " "]) []
     = (Reject (Error (js "Empty CSV file")), []).
Proof.
  split; [reflexivity|].
  apply (C3_empty_input_is_rejected Fragment.engine). reflexivity.
Defined.

(** C4 at a specification text with a line without colon and a line whose
    pattern is refused. *)
Lemma C4_default_entry_installed :
  compiled (engine := Fragment.engine)
           (join_lines [js "no colon here"; js "year: (\d+"]) = []
  /\ fst (parsePatterns (engine := Fragment.engine)
            (join_lines [js "no colon here"; js "year: (\d+"]) [])
     = Normal [(TEXT, DotPlus)].
Proof.
  split; [vm_compute; reflexivity|].
  apply (C4_default_entry_matches_first_run Fragment.engine).
  vm_compute. reflexivity.
Defined.

(** C4 as the specification states it fails at a line that ends with a
    carriage return, as the lines of a text with CR LF line ends do: the
    default expression stops before it. *)
Lemma C4_default_stops_at_carriage_return :
  exists m,
    fst (parsePatterns (engine := Fragment.engine) [] [])
    = Normal [(TEXT, DotPlus)]
    /\ nonblank_lines (js "ab" ++ [CR; LF] ++ js "cd")
       = [js "ab" ++ [CR]; js "cd"]
    /\ regexp_match (engine := Fragment.engine) (js "ab" ++ [CR]) DotPlus
       = Some m
    /\ whole m = js "ab"
    /\ group1 m = Some (js "ab")
    /\ whole m <> js "ab" ++ [CR].
Proof.
  exists {| whole := js "ab"; groups := [Some (js "ab")] |}.
  repeat split; try (vm_compute; reflexivity).
  vm_compute. discriminate.
Qed.

(** C5 at a specification text with two accepted declarations around a
    refused one. *)
Lemma C5_keys_of_three_lines :
  exists patternMap,
    fst (parsePatterns (engine := Fragment.engine)
           (join_lines [js "name: (\w+)"; js "year: (\d+"; js "age: (\d+)"])
           [])
    = Normal patternMap
    /\ forall k,
         In k (keys patternMap)
         <-> In k (map fst
                     (compiled (engine := Fragment.engine)
                        (join_lines [js "name: (\w+)"; js "year: (\d+";
                                     js "age: (\d+)"]))).
Proof.
  destruct (C5_keys_are_accepted_names Fragment.engine
              (join_lines [js "name: (\w+)"; js "year: (\d+"; js "age: (\d+)"])
              [])
    as [patternMap [Hparse [Hkeys _]]].
  - vm_compute. discriminate.
  - vm_compute. intros [H|[H|[]]]; discriminate H.
  - exists patternMap. split; [exact Hparse | exact Hkeys].
Defined.

(** C5 as the specification states it fails twice: a declaration named
    [text] puts that key in the map, and an accepted declaration named
    [__proto__] leaves no key, so that the default entry is installed. *)
Lemma C5_text_key_and_proto_name :
  compiled (engine := Fragment.engine) (js "text: a") = [(TEXT, js "a")]
  /\ fst (parsePatterns (engine := Fragment.engine) (js "text: a") [])
     = Normal [(TEXT, Compiled (js "a"))]
  /\ compiled (engine := Fragment.engine) (js "__proto__: a")
     = [(PROTO, js "a")]
  /\ fst (parsePatterns (engine := Fragment.engine) (js "__proto__: a") [])
     = Normal [(TEXT, DotPlus)].
Proof. repeat split; vm_compute; reflexivity. Qed.

(** C6 at three lines of which the second matches nothing: two rows, for
    the first and the third line. *)
Lemma C6_rows_of_three_lines :
  exists patternMap,
    fst (parsePatterns (engine := Fragment.engine) (js "age: (\d+)") [])
    = Normal patternMap
    /\ map (fun row => get row RAW_TEXT)
           [[(js "age", js "30"); (LINE_NUMBER, js "1");
             (RAW_TEXT, js "Alice,30")];
            [(js "age", js "25"); (LINE_NUMBER, js "3");
             (RAW_TEXT, js "Bob,25")]]
       = map Some
           (filter (fun line =>
                      existsb (matches (engine := Fragment.engine) line)
                              patternMap)
                   (nonblank_lines
                      (join_lines [js "Alice,30"; js "---"; js "Bob,25"])))
    /\ 2 <= length (nonblank_lines
                      (join_lines [js "Alice,30"; js "---"; js "Bob,25"])).
Proof.
  apply (C6_rows_are_the_matching_lines Fragment.engine
           (join_lines [js "Alice,30"; js "---"; js "Bob,25"])
           (js "age: (\d+)") []
           [[(js "age", js "30"); (LINE_NUMBER, js "1");
             (RAW_TEXT, js "Alice,30")];
            [(js "age", js "25"); (LINE_NUMBER, js "3");
             (RAW_TEXT, js "Bob,25")]]).
  vm_compute. reflexivity.
Defined.

(** C7 at a header of two cells and at two lines, with blanks around the
    pieces and quotes around some: a full line and a short one. *)
Lemma C7_rows_of_short_line :
  exists rows,
    fst (extractDataFromCsv
           (join_lines [js "name , " ++ in_quotes (js "age");
                        js " Alice ," ++ in_quotes (js "30");
                        js "Bob"]) [])
    = Resolve rows
    /\ length rows = 2
    /\ (exists row,
          nth_error rows 0 = Some row
          /\ get row (js "name") = Some (js "Alice")
          /\ get row (js "age") = Some (js "30"))
    /\ (exists row,
          nth_error rows 1 = Some row
          /\ get row (js "name") = Some (js "Bob")
          /\ get row (js "age") = Some []).
Proof.
  destruct (C7_one_row_per_line_last_column_wins
              (join_lines [js "name , " ++ in_quotes (js "age");
                           js " Alice ," ++ in_quotes (js "30");
                           js "Bob"]) []
              (js "name , " ++ in_quotes (js "age"))
              [js " Alice ," ++ in_quotes (js "30"); js "Bob"])
    as [rows [Hrows [Hlength Hrow]]].
  - vm_compute. reflexivity.
  - assert (Hname : forall i', 0 < i' ->
              nth_error (map (fun h => strip_quotes (trim h))
                             (split COMMA
                                (js "name , " ++ in_quotes (js "age")))) i'
              <> Some (js "name")).
    { intros [|[|[|i']]] Hlt; [lia| | |]; vm_compute; discriminate. }
    assert (Hage : forall i', 1 < i' ->
              nth_error (map (fun h => strip_quotes (trim h))
                             (split COMMA
                                (js "name , " ++ in_quotes (js "age")))) i'
              <> Some (js "age")).
    { intros [|[|[|i']]] Hlt; [lia|lia| |]; vm_compute; discriminate. }
    assert (Hproto : js "name" <> PROTO /\ js "age" <> PROTO).
    { split; vm_compute; discriminate. }
    exists rows. split; [exact Hrows|]. split; [exact Hlength|]. split.
    + destruct (Hrow 0 (js " Alice ," ++ in_quotes (js "30")) eq_refl)
        as [row [Hnth Hget]].
      exists row. split; [exact Hnth|]. split.
      * exact (Hget 0 (js "name") eq_refl (proj1 Hproto) Hname).
      * exact (Hget 1 (js "age") eq_refl (proj2 Hproto) Hage).
    + destruct (Hrow 1 (js "Bob") eq_refl) as [row [Hnth Hget]].
      exists row. split; [exact Hnth|]. split.
      * exact (Hget 0 (js "name") eq_refl (proj1 Hproto) Hname).
      * exact (Hget 1 (js "age") eq_refl (proj2 Hproto) Hage).
Defined.

(** C7 as the specification states it fails twice: with two header cells
    of the same name the first of them holds the second value, and a header
    cell named [__proto__] holds nothing. *)
Lemma C7_repeated_and_proto_headers :
  fst (extractDataFromCsv
         (join_lines [js "a, " ++ in_quotes (js "a");
                      js " 1 ," ++ in_quotes (js "2")]) [])
  = Resolve [[(js "a", js "2")]]
  /\ strip_quotes
       (trim (nth 0 (split COMMA (js "a, " ++ in_quotes (js "a"))) []))
     = js "a"
  /\ strip_quotes
       (trim (nth 0 (split COMMA (js " 1 ," ++ in_quotes (js "2"))) []))
     = js "1"
  /\ get [(js "a", js "2")] (js "a") <> Some (js "1")
  /\ fst (extractDataFromCsv (join_lines [js "__proto__,b"; js "1,2"]) [])
     = Resolve [[(js "b", js "2")]]
  /\ strip_quotes (trim (nth 0 (split COMMA (js "__proto__,b")) [])) = PROTO
  /\ get [(js "b", js "2")] PROTO = None.
Proof.
  repeat split; try (vm_compute; reflexivity).
  vm_compute. discriminate.
Qed.

(** C9 at the two lines and the two declarations of the example of the
    specification. *)
Lemma C9_rows_of_example :
  exists patternMap,
    fst (parsePatterns (engine := Fragment.engine)
           (join_lines [js "name: (\w+)"; js "age: (\d+)"]) [])
    = Normal patternMap
    /\ keys patternMap = [js "name"; js "age"]
    /\ fst (extractDataFromText (engine := Fragment.engine)
              (join_lines [js "Alice,30"; js "Bob,25"])
              (join_lines [js "name: (\w+)"; js "age: (\d+)"]) [])
       = Resolve
           (described_rows (engine := Fragment.engine) patternMap 0
              (nonblank_lines (join_lines [js "Alice,30"; js "Bob,25"]))).
Proof.
  apply (C9_field_order_of_rows Fragment.engine
           (join_lines [js "Alice,30"; js "Bob,25"])
           (join_lines [js "name: (\w+)"; js "age: (\d+)"]) []).
  - repeat first [apply Forall_nil | apply Forall_cons];
      (split; [split; [reflexivity | discriminate] | split; discriminate]).
  - vm_compute. discriminate.
Defined.

(** C9 as the specification states it fails twice: a field named by an
    array index comes before the fields declared before it, and a field
    named [raw_text] keeps its place before [line_number] while the line
    replaces its value. *)
Lemma C9_index_and_reserved_names :
  map fst (compiled (engine := Fragment.engine)
             (join_lines [js "b: (\w+)"; js "1: (\d+)"]))
  = [js "b"; js "1"]
  /\ fst (extractDataFromText (engine := Fragment.engine) (js "Alice,30")
            (join_lines [js "b: (\w+)"; js "1: (\d+)"]) [])
     = Resolve [[(js "1", js "30"); (js "b", js "Alice");
                 (LINE_NUMBER, js "1"); (RAW_TEXT, js "Alice,30")]]
  /\ fst (extractDataFromText (engine := Fragment.engine) (js "Alice,30")
            (join_lines [js "raw_text: (\w+)"; js "z: (\d+)"]) [])
     = Resolve [[(RAW_TEXT, js "Alice,30"); (js "z", js "30");
                 (LINE_NUMBER, js "1")]].
Proof. repeat split; vm_compute; reflexivity. Qed.

(** * Further properties of the code *)

(** ** White space and pieces *)

Lemma trimStart_app_nonws l c r :
  is_white_space c = false -> trimStart (l ++ c :: r) = trimStart l ++ c :: r.
Proof.
  intros Hc. induction l as [|x l IH]; simpl.
  - now rewrite Hc.
  - destruct (is_white_space x); auto.
Qed.

Lemma trimStart_nonws c s :
  is_white_space c = false -> trimStart (c :: s) = c :: s.
Proof. intros Hc. simpl. now rewrite Hc. Qed.

Lemma trimStart_head s :
  match trimStart s with
  | [] => True
  | c :: _ => is_white_space c = false
  end.
Proof.
  induction s as [|x s IH]; simpl; auto.
  destruct (is_white_space x) eqn:Hx; auto.
Qed.

Lemma trimEnd_cons_nonws c s :
  is_white_space c = false -> trimEnd (c :: s) = c :: trimEnd s.
Proof.
  intros Hc. unfold trimEnd. simpl.
  rewrite (trimStart_app_nonws (rev s) c [] Hc), rev_app_distr. reflexivity.
Qed.

Lemma trimEnd_snoc_nonws s c :
  is_white_space c = false -> trimEnd (s ++ [c]) = s ++ [c].
Proof.
  intros Hc. unfold trimEnd. rewrite rev_app_distr. simpl. rewrite Hc.
  simpl. now rewrite rev_involutive.
Qed.

Lemma trimEnd_snoc_ws s c :
  is_white_space c = true -> trimEnd (s ++ [c]) = trimEnd s.
Proof.
  intros Hc. unfold trimEnd. rewrite rev_app_distr. simpl. now rewrite Hc.
Qed.

Lemma trimEnd_nil : trimEnd [] = [].
Proof. reflexivity. Qed.

Lemma trimStart_idem s : trimStart (trimStart s) = trimStart s.
Proof.
  induction s as [|x s IH]; simpl; auto.
  destruct (is_white_space x) eqn:Hx; auto. simpl. now rewrite Hx.
Qed.

Lemma trimEnd_idem s : trimEnd (trimEnd s) = trimEnd s.
Proof.
  unfold trimEnd. now rewrite rev_involutive, trimStart_idem.
Qed.

(** Trimming twice is trimming once. *)
Lemma trim_idem s : trim (trim s) = trim s.
Proof.
  unfold trim. pose proof (trimStart_head s) as Hhead.
  destruct (trimStart s) as [|c t]; [reflexivity|].
  rewrite (trimEnd_cons_nonws c t Hhead).
  rewrite (trimStart_nonws c (trimEnd t) Hhead).
  rewrite (trimEnd_cons_nonws c (trimEnd t) Hhead).
  now rewrite trimEnd_idem.
Qed.

(** A trailing white space does not change the trimmed text. *)
Lemma trim_snoc_ws s c : is_white_space c = true -> trim (s ++ [c]) = trim s.
Proof.
  intros Hc. unfold trim. induction s as [|x s IH]; simpl.
  - now rewrite Hc.
  - destruct (is_white_space x); auto.
    exact (trimEnd_snoc_ws (x :: s) c Hc).
Qed.

(** A text between two characters that are no white space is trimmed. *)
Lemma trim_between c s d :
  is_white_space c = false -> is_white_space d = false ->
  trim (c :: s ++ [d]) = c :: s ++ [d].
Proof.
  intros Hc Hd. unfold trim. rewrite (trimStart_nonws c (s ++ [d]) Hc).
  exact (trimEnd_snoc_nonws (c :: s) d Hd).
Qed.

Lemma In_trimStart c s : In c (trimStart s) -> In c s.
Proof.
  induction s as [|x s IH]; simpl; auto.
  destruct (is_white_space x); simpl; auto.
Qed.

Lemma In_trim c s : In c (trim s) -> In c s.
Proof.
  unfold trim, trimEnd. intros Hin. apply In_trimStart.
  apply in_rev in Hin. apply In_trimStart in Hin. now apply in_rev in Hin.
Qed.

Lemma truthy_trim_nonws c s :
  is_white_space c = false -> truthy (trim (c :: s)) = true.
Proof.
  intros Hc. unfold trim. rewrite (trimStart_nonws c s Hc).
  now rewrite (trimEnd_cons_nonws c s Hc).
Qed.

Lemma split_pieces_no_sep sep s :
  Forall (fun piece => ~ In sep piece) (split sep s).
Proof.
  induction s as [|c s IH]; simpl.
  - constructor; auto.
  - destruct (c =? sep)%N eqn:Hc.
    + constructor; auto.
    + apply N.eqb_neq in Hc. destruct (split sep s) as [|p ps].
      * constructor; auto. simpl. intuition.
      * inversion IH; subst. constructor; auto. simpl. intuition.
Qed.

Lemma In_split_piece sep s piece c :
  In piece (split sep s) -> In c piece -> In c s.
Proof.
  revert piece. induction s as [|x s IH]; simpl; intros piece.
  - intros [<-|[]] [].
  - destruct (x =? sep)%N.
    + intros [<-|Hin] Hc; [destruct Hc|]. right. eapply IH; eauto.
    + destruct (split sep s) as [|p ps] eqn:Hs.
      * intros [<-|[]] [->|[]]. now left.
      * intros [<-|Hin] Hc.
        -- destruct Hc as [->|Hc]; [now left|]. right.
           apply (IH p); simpl; auto.
        -- right. apply (IH piece); simpl; auto.
Qed.

Lemma split_no_sep sep s : ~ In sep s -> split sep s = [s].
Proof.
  induction s as [|c s IH]; simpl; auto.
  intros Hnin. destruct (c =? sep)%N eqn:Hc.
  - apply N.eqb_eq in Hc. tauto.
  - rewrite IH; tauto.
Qed.

Lemma split_app_sep sep piece rest :
  ~ In sep piece -> split sep (piece ++ sep :: rest) = piece :: split sep rest.
Proof.
  induction piece as [|c piece IH]; simpl; intros Hnin.
  - now rewrite N.eqb_refl.
  - destruct (c =? sep)%N eqn:Hc.
    + apply N.eqb_eq in Hc. tauto.
    + rewrite IH; tauto.
Qed.

(** Cutting what was joined gives the pieces back, when no piece holds the
    separator. *)
Lemma split_join sep pieces :
  pieces <> [] -> Forall (fun piece => ~ In sep piece) pieces ->
  split sep (join [sep] pieces) = pieces.
Proof.
  induction pieces as [|p rest IH]; [congruence|].
  intros _ Hall. inversion Hall as [|? ? Hp Hrest]; subst.
  destruct rest as [|q rest].
  - simpl. now apply split_no_sep.
  - change (join [sep] (p :: q :: rest))
      with (p ++ sep :: join [sep] (q :: rest)).
    rewrite split_app_sep by assumption. f_equal. apply IH; [discriminate|auto].
Qed.

(** ** More on parsePatterns *)

(** X1. Whatever the line, a declaration read from it has a field name and
    a pattern that are not empty, are trimmed, and hold no colon: a pattern
    with a colon in it is never compiled. *)
Theorem declaration_is_trimmed_and_colon_free
  (line fieldName pattern : jsstring) :
  declaration line = Some (fieldName, pattern) ->
  fieldName <> [] /\ pattern <> []
  /\ trim fieldName = fieldName /\ trim pattern = pattern
  /\ ~ In COLON fieldName /\ ~ In COLON pattern.
Proof.
  unfold declaration, destructure.
  pose proof (split_pieces_no_sep COLON line) as Hpieces.
  destruct (split COLON line) as [|p1 [|p2 ps]]; simpl; try discriminate.
  destruct (truthy (trim p1)) eqn:H1; simpl; [|discriminate].
  destruct (truthy (trim p2)) eqn:H2; [|discriminate].
  intros [= <- <-].
  inversion Hpieces as [|? ? Hp1 Hrest]; subst.
  inversion Hrest as [|? ? Hp2 _]; subst.
  repeat split.
  - intros Heq. rewrite Heq in H1. discriminate.
  - intros Heq. rewrite Heq in H2. discriminate.
  - apply trim_idem.
  - apply trim_idem.
  - intros Hin. apply In_trim in Hin. auto.
  - intros Hin. apply In_trim in Hin. auto.
Qed.

Lemma declaration_of_example :
  declaration (js " phone :  (\d+)-(\d+) : rest")
  = Some (js "phone", js "(\d+)-(\d+)")
  /\ js "phone" <> [] /\ js "(\d+)-(\d+)" <> []
  /\ trim (js "phone") = js "phone"
  /\ trim (js "(\d+)-(\d+)") = js "(\d+)-(\d+)"
  /\ ~ In COLON (js "phone") /\ ~ In COLON (js "(\d+)-(\d+)").
Proof.
  split; [vm_compute; reflexivity|].
  apply (declaration_is_trimmed_and_colon_free
           (js " phone :  (\d+)-(\d+) : rest")).
  vm_compute. reflexivity.
Defined.

Section ParserMore.

Context `{engine : RegExpEngine}.

Lemma define_all_app o ds1 ds2 :
  define_all o (ds1 ++ ds2) = define_all (define_all o ds1) ds2.
Proof. unfold define_all. apply fold_left_app. Qed.

Lemma get_define_all_other ds o k :
  ~ In k (map fst ds) -> get (define_all o ds) k = get o k.
Proof.
  revert o. induction ds as [|[f pat] ds IH]; simpl; intros o Hnin; auto.
  unfold define_all in *. simpl. rewrite IH by tauto. rewrite get_define.
  destruct (jsstring_eq_dec f k); [subst; tauto | reflexivity].
Qed.

(** The last declaration of a name decides the expression under it. *)
Lemma get_define_all_last o before k pattern after :
  ~ In k (map fst after) ->
  get (define_all o (before ++ (k, pattern) :: after)) k
  = Some (Compiled pattern).
Proof.
  intros Hnin. rewrite define_all_app.
  change (define_all (define_all o before) ((k, pattern) :: after))
    with (define_all (define (define_all o before) k (Compiled pattern)) after).
  rewrite get_define_all_other by assumption. rewrite get_define.
  destruct (jsstring_eq_dec k k); congruence.
Qed.

Lemma refused_warnings_cons line lines :
  refused_warnings (line :: lines) =
  match declaration line with
  | Some d => if compiles (snd d) then refused_warnings lines
              else warning (fst d) (snd d) :: refused_warnings lines
  | None => refused_warnings lines
  end.
Proof.
  unfold refused_warnings, declarations_of. simpl. rewrite filter_app, map_app.
  destruct (declaration line) as [d|]; simpl; auto.
  destruct (compiles (snd d)); auto.
Qed.

Lemma parse_fold_console_plain lines p out :
  proto_regexp p = false ->
  ~ In PROTO (map fst (compiled_of lines)) ->
  snd (fold_left parse_step lines (p, out)) = out ++ refused_warnings lines.
Proof.
  revert p out. induction lines as [|line lines IH]; intros p out Hproto Hnin.
  - simpl. now rewrite app_nil_r.
  - rewrite compiled_of_cons in Hnin. rewrite refused_warnings_cons. simpl.
    destruct (declaration line) as [[fieldName pattern]|]; simpl in *; auto.
    destruct (compiles pattern); simpl in *.
    + rewrite assign_pattern_plain by intuition. apply IH; simpl; auto.
    + rewrite IH by auto. now rewrite <- app_assoc.
Qed.

End ParserMore.

(** X2. When the same field name is declared several times, the map holds
    under it the expression of the last accepted declaration of that name
    (no accepted declaration being named [__proto__]). *)
Theorem last_declaration_wins
  (engine : RegExpEngine) (patterns : jsstring) (out : console)
  (before after : list (jsstring * jsstring)) (k pattern : jsstring) :
  compiled patterns = before ++ (k, pattern) :: after ->
  ~ In k (map fst after) ->
  ~ In PROTO (map fst (compiled patterns)) ->
  exists patternMap,
    fst (parsePatterns patterns out) = Normal patternMap
    /\ get patternMap k = Some (Compiled pattern).
Proof.
  intros Hc Hlast Hproto. rewrite parsePatterns_fst. cbv zeta.
  rewrite parse_fold_plain by auto. fold (compiled patterns). simpl.
  rewrite Hc.
  assert (Hget : get (define_all [] (before ++ (k, pattern) :: after)) k
                 = Some (Compiled pattern))
    by (apply get_define_all_last; assumption).
  destruct (keys (define_all [] (before ++ (k, pattern) :: after))) eqn:Hk.
  - exfalso.
    assert (Hnone : get (define_all [] (before ++ (k, pattern) :: after)) k
                    = None).
    { apply get_None_not_In. rewrite Hk. simpl. tauto. }
    congruence.
  - eexists. split; [reflexivity | exact Hget].
Qed.

Lemma last_declaration_wins_example :
  exists patternMap,
    fst (parsePatterns (engine := Fragment.engine)
           (join_lines [js "id: (\d+)"; js "name: (\w+)"; js "id: #(\w+)"]) [])
    = Normal patternMap
    /\ get patternMap (js "id") = Some (Compiled (js "#(\w+)")).
Proof.
  apply (last_declaration_wins Fragment.engine
           (join_lines [js "id: (\d+)"; js "name: (\w+)"; js "id: #(\w+)"]) []
           [(js "id", js "(\d+)"); (js "name", js "(\w+)")] []
           (js "id") (js "#(\w+)")).
  - vm_compute. reflexivity.
  - simpl. tauto.
  - vm_compute. intros [H|[H|[H|[]]]]; discriminate H.
Defined.

(** X3. The parser writes to the console one warning for each declaration
    whose pattern is refused, in the order of the lines, and nothing else:
    a line that declares nothing and an accepted declaration are silent (no
    accepted declaration being named [__proto__]). *)
Theorem one_warning_per_refused_pattern
  (engine : RegExpEngine) (patterns : jsstring) (out : console) :
  ~ In PROTO (map fst (compiled patterns)) ->
  snd (parsePatterns patterns out)
  = out ++ refused_warnings (nonblank_lines patterns).
Proof.
  intros Hproto. unfold parsePatterns.
  pose proof (parse_fold_console_plain (nonblank_lines patterns)
                empty_patterns out eq_refl Hproto) as Hout.
  destruct (fold_left parse_step (nonblank_lines patterns)
                      (empty_patterns, out)) as [p out'].
  simpl in Hout. subst out'.
  destruct (keys (own p)) eqn:Hkeys; [|reflexivity].
  now rewrite (assign_default p Hkeys).
Qed.

Lemma one_warning_per_refused_pattern_example :
  snd (parsePatterns (engine := Fragment.engine)
         (join_lines [js "name: (\w+)"; js "no colon"; js "year: (\d+"]) [])
  = [js "Invalid regex pattern for year: (\d+"].
Proof.
  apply (one_warning_per_refused_pattern Fragment.engine
           (join_lines [js "name: (\w+)"; js "no colon"; js "year: (\d+"]) []).
  vm_compute. intros [H|[]]. discriminate H.
Defined.

(** ** More on the pattern extractor *)

Lemma uint_units_injective d d' : uint_units d = uint_units d' -> d = d'.
Proof.
  revert d'. induction d; destruct d'; simpl; intros H;
    try discriminate H; try reflexivity;
    injection H as H; f_equal; auto.
Qed.

(** Different numbers print differently. *)
Lemma toString_injective n m : toString n = toString m -> n = m.
Proof.
  unfold toString. intros H. apply uint_units_injective in H.
  rewrite <- (DecimalNat.Unsigned.of_to n), <- (DecimalNat.Unsigned.of_to m).
  now rewrite H.
Qed.

Lemma NoDup_map_fst_filter {A B} (p : A * B -> bool) (l : list (A * B)) :
  NoDup (map fst l) -> NoDup (map fst (filter p l)).
Proof.
  induction l as [|x l IH]; simpl; auto.
  intros Hnd. inversion Hnd as [|? ? Hnin Hnd']; subst.
  destruct (p x); simpl; auto. constructor; auto.
  intros Hin. apply Hnin. apply in_map_iff in Hin.
  destruct Hin as [y [Hy Hin]]. apply filter_In in Hin.
  apply in_map_iff. exists y. tauto.
Qed.

Lemma NoDup_map_injective {A B} (f : A -> B) (l : list A) :
  (forall x y, f x = f y -> x = y) -> NoDup l -> NoDup (map f l).
Proof.
  intros Hinj. induction 1 as [|x l Hnin Hnd IH]; simpl; constructor; auto.
  intros Hin. apply in_map_iff in Hin. destruct Hin as [y [Hy Hin]].
  apply Hinj in Hy. now subst.
Qed.

Lemma map_fst_combine_seq {A} (l : list A) start :
  map fst (combine (seq start (length l)) l) = seq start (length l).
Proof.
  revert start. induction l as [|x l IH]; simpl; intros start; auto.
  now rewrite IH.
Qed.

Section ExtractorMore.

Context `{engine : RegExpEngine}.

Lemma get_line_number (row : Row) n line :
  get (assign (assign row LINE_NUMBER n) RAW_TEXT line) LINE_NUMBER = Some n.
Proof.
  rewrite !get_assign.
  destruct (jsstring_eq_dec RAW_TEXT PROTO) as [Heq|_]; [discriminate Heq|].
  destruct (jsstring_eq_dec RAW_TEXT LINE_NUMBER) as [Heq|_];
    [discriminate Heq|].
  destruct (jsstring_eq_dec LINE_NUMBER PROTO) as [Heq|_]; [discriminate Heq|].
  destruct (jsstring_eq_dec LINE_NUMBER LINE_NUMBER); congruence.
Qed.

Lemma forEach_rows_numbers patternMap lines index :
  map (fun row => (get row LINE_NUMBER, get row RAW_TEXT))
      (forEach_rows patternMap index lines)
  = map (fun il : nat * jsstring =>
           (Some (toString (fst il + 1)), Some (snd il)))
        (filter (fun il => existsb (matches (snd il)) patternMap)
                (combine (seq index (length lines)) lines)).
Proof.
  revert index. induction lines as [|line lines IH]; simpl; intros index; auto.
  rewrite map_app, IH.
  destruct (line_rows_cases patternMap index line) as [[Hm ->]|[Hm ->]];
    rewrite Hm; simpl; auto.
  now rewrite get_raw_text, get_line_number.
Qed.

Lemma forEach_rows_numbers_NoDup patternMap lines index :
  NoDup (map (fun row => get row LINE_NUMBER)
             (forEach_rows patternMap index lines)).
Proof.
  pose proof (forEach_rows_numbers patternMap lines index) as Hnum.
  apply (f_equal (map fst)) in Hnum. rewrite !map_map in Hnum. simpl in Hnum.
  rewrite Hnum.
  rewrite <- (map_map fst (fun i => Some (toString (i + 1)))).
  apply NoDup_map_injective.
  - intros x y [= H]. apply toString_injective in H. lia.
  - apply NoDup_map_fst_filter. rewrite map_fst_combine_seq. apply seq_NoDup.
Qed.

End ExtractorMore.

(** X4. Every row of the pattern extractor carries the 1-based position of
    its line among the non-blank lines, in decimal, and that line: the
    pairs of line number and raw text of the rows are, in order, those of
    the lines that some entry matches, whatever the field names are; no two
    rows have the same line number. *)
Theorem rows_carry_line_number_and_line
  (engine : RegExpEngine) (text patterns : jsstring) (out : console)
  (rows : ExtractedData) :
  fst (extractDataFromText text patterns out) = Resolve rows ->
  exists patternMap,
    fst (parsePatterns patterns out) = Normal patternMap
    /\ map (fun row => (get row LINE_NUMBER, get row RAW_TEXT)) rows
       = map (fun il : nat * jsstring =>
                (Some (toString (fst il + 1)), Some (snd il)))
             (filter (fun il => existsb (matches (snd il)) patternMap)
                     (combine (seq 0 (length (nonblank_lines text)))
                              (nonblank_lines text)))
    /\ NoDup (map (fun row => get row LINE_NUMBER) rows).
Proof.
  rewrite extractDataFromText_fst.
  destruct (parsePatterns_normal patterns out) as [pm [Hpm _]].
  assert (Hpm' : fst (parsePatterns patterns []) = Normal pm).
  { rewrite parsePatterns_fst in *. exact Hpm. }
  rewrite Hpm'. intros Hrows. exists pm. split; [exact Hpm|].
  destruct (nonblank_lines text) as [|line lines] eqn:Hlines; [discriminate|].
  injection Hrows as <-.
  split.
  - exact (forEach_rows_numbers pm (line :: lines) 0).
  - exact (forEach_rows_numbers_NoDup pm (line :: lines) 0).
Qed.

Lemma rows_carry_line_number_and_line_example :
  exists patternMap,
    fst (parsePatterns (engine := Fragment.engine) (js "age: (\d+)") [])
    = Normal patternMap
    /\ [(Some (js "1"), Some (js "Alice,30"));
        (Some (js "3"), Some (js "Bob,25"))]
       = map (fun il : nat * jsstring =>
                (Some (toString (fst il + 1)), Some (snd il)))
             (filter (fun il =>
                        existsb (matches (engine := Fragment.engine) (snd il))
                                patternMap)
                     (combine (seq 0 3) [js "Alice,30"; js "---"; js "Bob,25"]))
    /\ NoDup [Some (js "1"); Some (js "3")].
Proof.
  apply (rows_carry_line_number_and_line Fragment.engine
           (join_lines [js "Alice,30"; js "---"; js "Bob,25"])
           (js "age: (\d+)") []
           [[(js "age", js "30"); (LINE_NUMBER, js "1");
             (RAW_TEXT, js "Alice,30")];
            [(js "age", js "25"); (LINE_NUMBER, js "3");
             (RAW_TEXT, js "Bob,25")]]).
  vm_compute. reflexivity.
Defined.

(** ** More on the delimited-text extractor *)

Lemma Forall2_map_eq {A B} (R : A -> A -> Prop) (f : A -> B) l l' :
  (forall a b, R a b -> f a = f b) -> Forall2 R l l' -> map f l = map f l'.
Proof.
  intros Hf. induction 1; simpl; auto. f_equal; auto.
Qed.

Lemma Forall2_filter {A} (R : A -> A -> Prop) (p : A -> bool) l l' :
  (forall a b, R a b -> p a = p b) -> Forall2 R l l' ->
  Forall2 R (filter p l) (filter p l').
Proof.
  intros Hp. induction 1 as [|a b l l' Hab Hl IH]; simpl; auto.
  rewrite (Hp a b Hab). destruct (p b); auto.
Qed.

Lemma split_snoc sep s c :
  c <> sep ->
  Forall2 (fun a b => a = b \/ a = b ++ [c])
          (split sep (s ++ [c])) (split sep s).
Proof.
  intros Hc. induction s as [|x s IH]; simpl.
  - apply N.eqb_neq in Hc. rewrite Hc.
    constructor; [now right | constructor].
  - destruct (x =? sep)%N.
    + constructor; auto.
    + inversion IH as [|a b l l' Hab Hl Ha Hb]; subst.
      * constructor; [now left | constructor].
      * constructor; auto. destruct Hab as [->| ->]; auto.
Qed.

Lemma split_crlf text :
  Forall2 (fun a b => a = b \/ a = b ++ [CR])
          (split LF (crlf text)) (split LF text).
Proof.
  induction text as [|x text IH]; simpl.
  - constructor; [now left | constructor].
  - destruct (x =? LF)%N eqn:Hx; simpl.
    + constructor; [now right | exact IH].
    + rewrite Hx. inversion IH as [|a b l l' Hab Hl Ha Hb]; subst.
      * constructor; [now left | constructor].
      * constructor; auto. destruct Hab as [->| ->]; auto.
Qed.

Lemma trim_optional_cr a b : a = b \/ a = b ++ [CR] -> trim a = trim b.
Proof.
  intros [->| ->]; [reflexivity|]. now apply trim_snoc_ws.
Qed.

Lemma cells_optional_cr a b : a = b \/ a = b ++ [CR] -> cells a = cells b.
Proof.
  intros [->| ->]; [reflexivity|]. unfold cells.
  apply Forall2_map_eq with (R := fun a b => a = b \/ a = b ++ [CR]).
  - intros x y Hxy. now rewrite (trim_optional_cr x y Hxy).
  - apply split_snoc. discriminate.
Qed.

Lemma csv_outcome_optional_cr (lines lines' : list jsstring) (out : console) :
  Forall2 (fun a b => a = b \/ a = b ++ [CR]) lines lines' ->
  match lines with
  | [] => (Reject (Error (js "Empty CSV file")), out)
  | first :: rest => (Resolve (map (csv_row (cells first)) rest), out)
  end
  = match lines' with
    | [] => (Reject (Error (js "Empty CSV file")), out)
    | first :: rest => (Resolve (map (csv_row (cells first)) rest), out)
    end.
Proof.
  intros [|first first' rest rest' Hfirst Hrest]; [reflexivity|].
  rewrite (cells_optional_cr first first' Hfirst). do 2 f_equal.
  unfold csv_row.
  apply Forall2_map_eq with (R := fun a b => a = b \/ a = b ++ [CR]); auto.
  intros a b Hab. now rewrite (cells_optional_cr a b Hab).
Qed.

(** X5. The delimited-text extractor gives the same outcome for a text with
    CR LF line ends as for the same text with LF line ends. *)
Theorem delimited_text_ignores_carriage_returns
  (text : jsstring) (out : console) :
  extractDataFromCsv (crlf text) out = extractDataFromCsv text out.
Proof.
  unfold extractDataFromCsv, nonblank_lines.
  apply csv_outcome_optional_cr.
  apply Forall2_filter.
  - intros a b H. now rewrite (trim_optional_cr a b H).
  - apply split_crlf.
Qed.

(** ** The delimited-text export *)

Section CsvExport.

Context `{host : Host}.

Lemma read_quoted_value v : forall field fields tail,
  read_record (escape_quotes v ++ DQUOTE :: tail) Quoted field fields
  = read_record tail QuoteSeen (rev v ++ field) fields.
Proof.
  induction v as [|c v IH]; intros field fields tail; simpl.
  - reflexivity.
  - destruct (c =? DQUOTE)%N eqn:Hc; simpl.
    + rewrite IH. apply N.eqb_eq in Hc. subst c.
      now rewrite <- app_assoc.
    + rewrite Hc, IH. now rewrite <- app_assoc.
Qed.

Lemma join_cons2 sep p q rest :
  join sep (p :: q :: rest) = p ++ sep ++ join sep (q :: rest).
Proof. reflexivity. Qed.

Lemma read_one_quoted v fields tail :
  read_record (quoted v ++ tail) FieldStart [] fields
  = read_record tail QuoteSeen (rev v) fields.
Proof.
  unfold quoted. simpl. rewrite <- app_assoc. simpl.
  rewrite read_quoted_value. now rewrite (app_nil_r (rev v)).
Qed.

Lemma read_after_quote_comma field fields tail :
  read_record ([COMMA] ++ tail) QuoteSeen field fields
  = read_record tail FieldStart [] (rev field :: fields).
Proof. reflexivity. Qed.

Lemma read_after_quote_lf field fields rest :
  read_record (LF :: rest) QuoteSeen field fields
  = Some (rev fields ++ [rev field], rest).
Proof. reflexivity. Qed.

Lemma read_after_quote_end field fields :
  read_record [] QuoteSeen field fields = Some (rev fields ++ [rev field], []).
Proof. reflexivity. Qed.

(** A line of quoted values that is the last of the text. *)
Lemma read_quoted_values_end values : forall fields,
  values <> [] ->
  read_record (join [COMMA] (map quoted values)) FieldStart [] fields
  = Some (rev fields ++ values, []).
Proof.
  induction values as [|v values IH]; intros fields Hne; [congruence|].
  destruct values as [|w values].
  - simpl join. rewrite <- (app_nil_r (quoted v)), read_one_quoted.
    now rewrite read_after_quote_end, rev_involutive.
  - simpl map. rewrite join_cons2, read_one_quoted, read_after_quote_comma.
    rewrite rev_involutive.
    change (quoted w :: map quoted values) with (map quoted (w :: values)).
    transitivity (Some (rev (v :: fields) ++ w :: values, @nil code_unit)).
    + apply IH. discriminate.
    + simpl. now rewrite <- app_assoc.
Qed.

(** A line of quoted values followed by a line feed. *)
Lemma read_quoted_values_line values : forall fields rest,
  values <> [] ->
  read_record (join [COMMA] (map quoted values) ++ LF :: rest)
              FieldStart [] fields
  = Some (rev fields ++ values, rest).
Proof.
  induction values as [|v values IH]; intros fields rest Hne; [congruence|].
  destruct values as [|w values].
  - simpl join. rewrite read_one_quoted.
    now rewrite read_after_quote_lf, rev_involutive.
  - simpl map. rewrite join_cons2, <- !app_assoc, read_one_quoted.
    rewrite read_after_quote_comma, rev_involutive.
    change (quoted w :: map quoted values) with (map quoted (w :: values)).
    transitivity (Some (rev (v :: fields) ++ w :: values, rest)).
    + apply IH. discriminate.
    + simpl. now rewrite <- app_assoc.
Qed.

(** All the lines of values, read one after the other. *)
Lemma read_records_lines (rows : list (list jsstring)) :
  Forall (fun values => values <> []) rows ->
  read_records (length rows)
               (join [LF] (map (fun values => join [COMMA] (map quoted values))
                               rows))
  = Some rows.
Proof.
  induction rows as [|values rows IH]; intros Hall; [reflexivity|].
  inversion Hall as [|? ? Hne Hrest]; subst.
  destruct rows as [|values' rows].
  - simpl. now rewrite read_quoted_values_end.
  - simpl map. rewrite join_cons2. cbn [length read_records].
    change ([LF] ++ ?x) with (LF :: x).
    rewrite read_quoted_values_line by assumption.
    simpl rev. simpl app.
    match goal with
    | |- match ?x with _ => _ end = _ =>
        replace x with (Some (values' :: rows))
          by (symmetry; apply IH; assumption)
    end.
    reflexivity.
Qed.

End CsvExport.

(** X6. The delimited-text export is the line of the header names followed
    by one line per row, and a reader of quoted comma-separated values
    reads from these lines, for every row, exactly the texts of the row
    under the headers of the first row, whatever commas, quotes and line
    feeds the texts hold. *)
Theorem exported_lines_decode_to_the_values
  (host : Host) (first : Row) (rest : ExtractedData) (filename : jsstring) :
  keys first <> [] ->
  exists body,
    exportToCsv (first :: rest) filename
    = [Download (filename ++ js ".csv")
                (join [COMMA] (keys first) ++ LF :: body)
                (js "text/csv;charset=utf-8;")]
    /\ read_records (length (first :: rest)) body
       = Some (map (fun row =>
                      map (fun h => concat_text (lookup row h)) (keys first))
                   (first :: rest)).
Proof.
  intros Hkeys.
  exists (join [LF] (map (csv_line (keys first)) (first :: rest))).
  split; [reflexivity|].
  pose proof (read_records_lines
                (map (fun row =>
                        map (fun h => concat_text (lookup row h)) (keys first))
                     (first :: rest))) as Hread.
  rewrite length_map, map_map in Hread.
  rewrite <- Hread.
  - f_equal. f_equal. apply map_ext. intros row. unfold csv_line.
    now rewrite map_map.
  - apply Forall_forall. intros values Hin. apply in_map_iff in Hin.
    destruct Hin as [row [<- _]]. destruct (keys first); [congruence|].
    discriminate.
Qed.

Lemma exported_lines_decode_example :
  exists body,
    exportToCsv (host := reference_host)
      [[(js "name", js "Smith, " ++ DQUOTE :: js "Al" ++ [DQUOTE]);
        (js "age", js "30")];
       [(js "age", js "25")]]
      (js "extracted_data")
    = [Download (js "extracted_data.csv")
                (js "name,age" ++ LF :: body)
                (js "text/csv;charset=utf-8;")]
    /\ read_records 2 body
       = Some [[js "Smith, " ++ DQUOTE :: js "Al" ++ [DQUOTE]; js "30"];
               [js "undefined"; js "25"]].
Proof.
  apply (exported_lines_decode_to_the_values reference_host
           [(js "name", js "Smith, " ++ DQUOTE :: js "Al" ++ [DQUOTE]);
            (js "age", js "30")]
           [[(js "age", js "25")]] (js "extracted_data")).
  discriminate.
Defined.

(** The three presentations of a field agree on the value a row holds
    under a header. For a header the row does not hold, and that is no
    name of [Object.prototype], the delimited-text export writes the text
    [undefined], while the report and the table leave the place empty. *)
Lemma presentations_of_a_field
  (host : Host) (row : Row) (header : jsstring) :
  (forall v,
     get row header = Some v ->
     csv_value row header = quoted v
     /\ rtf_field row header = js "  " ++ header ++ js ": " ++ v ++ js "\par"
     /\ App.cell row header = v)
  /\ (get row header = None ->
      inherited_text header = None ->
      csv_value row header = quoted (js "undefined")
      /\ rtf_field row header = js "  " ++ header ++ js ": " ++ js "\par"
      /\ App.cell row header = []).
Proof.
  unfold csv_value, rtf_field, App.cell, lookup. split.
  - intros v ->. simpl. now destruct v.
  - intros -> ->. auto.
Qed.

(** ** Exporting and importing again *)

Lemma plain_value_chars v :
  plain_value v -> ~ In COMMA v /\ ~ In LF v /\ ~ In DQUOTE v.
Proof.
  unfold plain_value. intros Hall.
  assert (H : forall c, In c v -> plain_char c = true)
    by (apply forallb_forall; exact Hall).
  repeat split; intros Hin; apply H in Hin; discriminate Hin.
Qed.

Lemma escape_quotes_plain v : plain_value v -> escape_quotes v = v.
Proof.
  unfold plain_value. induction v as [|c v IH]; simpl; auto.
  intros Hall. apply andb_prop in Hall. destruct Hall as [Hc Hv].
  unfold plain_char in Hc. apply negb_true_iff in Hc.
  apply orb_false_iff in Hc. destruct Hc as [_ Hc]. rewrite Hc. simpl.
  now rewrite IH.
Qed.

Lemma strip_quotes_plain v : plain_value v -> strip_quotes v = v.
Proof.
  unfold plain_value, strip_quotes. induction v as [|c v IH]; simpl; auto.
  intros Hall. apply andb_prop in Hall. destruct Hall as [Hc Hv].
  unfold plain_char in Hc. apply negb_true_iff in Hc.
  apply orb_false_iff in Hc. destruct Hc as [_ Hc]. rewrite Hc. simpl.
  now rewrite IH.
Qed.

Lemma strip_quotes_app a b :
  strip_quotes (a ++ b) = strip_quotes a ++ strip_quotes b.
Proof. apply filter_app. Qed.

Lemma strip_quotes_quoted v : plain_value v -> strip_quotes (quoted v) = v.
Proof.
  intros Hv. unfold quoted. rewrite (escape_quotes_plain v Hv).
  change (DQUOTE :: v ++ [DQUOTE]) with ([DQUOTE] ++ v ++ [DQUOTE]).
  rewrite !strip_quotes_app, (strip_quotes_plain v Hv).
  change (strip_quotes [DQUOTE]) with (@nil code_unit).
  apply app_nil_r.
Qed.

Lemma trim_quoted v : trim (quoted v) = quoted v.
Proof. unfold quoted. apply trim_between; reflexivity. Qed.

Lemma In_join c sep pieces :
  In c (join sep pieces) ->
  In c sep \/ exists piece, In piece pieces /\ In c piece.
Proof.
  induction pieces as [|p rest IH]; simpl; [tauto|].
  destruct rest as [|q rest].
  - intros Hin. right. exists p. auto.
  - rewrite !in_app_iff. intros [Hin|[Hin|Hin]].
    + right. exists p. auto.
    + now left.
    + destruct (IH Hin) as [H|[piece [Hp Hc]]]; [now left|].
      right. exists piece. split; [right; exact Hp | exact Hc].
Qed.

Lemma In_quoted_plain c v : plain_value v -> In c (quoted v) ->
  c = DQUOTE \/ In c v.
Proof.
  intros Hv. unfold quoted. rewrite (escape_quotes_plain v Hv). simpl.
  rewrite in_app_iff. simpl. intuition.
Qed.

Lemma truthy_trim_In c s :
  In c s -> is_white_space c = false -> truthy (trim s) = true.
Proof.
  intros Hin Hc. induction s as [|x s IH]; [destruct Hin|].
  destruct (is_white_space x) eqn:Hx.
  - destruct Hin as [->|Hin]; [congruence|].
    unfold trim in *. simpl. rewrite Hx. auto.
  - now apply truthy_trim_nonws.
Qed.

(** The texts of a row under its own keys are its values. *)
Lemma texts_under_own_keys `{host : Host} (row : Row) :
  NoDup (keys row) ->
  map (fun h => concat_text (lookup row h)) (keys row) = map snd row.
Proof.
  induction row as [|[k v] row IH]; simpl; auto.
  intros Hnd. inversion Hnd as [|? ? Hnin Hnd']; subst. f_equal.
  - unfold lookup. simpl.
    destruct (jsstring_eq_dec k k); [reflexivity | congruence].
  - rewrite <- (IH Hnd'). apply map_ext_in. intros h Hh.
    unfold lookup. simpl. destruct (jsstring_eq_dec h k); [subst; tauto|].
    reflexivity.
Qed.

Lemma enumerated_before_index pre k suf n :
  enumeration_order (pre ++ k :: suf) = true ->
  array_index k = Some n ->
  Forall (fun p => exists m, array_index p = Some m /\ (m <= n)%N) pre.
Proof.
  intros Horder Hk. induction pre as [|p pre IH]; [constructor|].
  simpl in Horder. apply andb_prop in Horder. destruct Horder as [Hp Hrest].
  constructor; [|auto].
  assert (Hpk : enumerated_before p k = true).
  { apply (proj1 (forallb_forall _ _) Hp). apply in_or_app. right. now left. }
  unfold enumerated_before in Hpk. rewrite Hk in Hpk.
  destruct (array_index p) as [m|]; [|discriminate].
  exists m. split; auto. now apply N.leb_le.
Qed.

Lemma insert_index_last {V} (o : object V) n k v :
  Forall (fun p => exists m, array_index p = Some m /\ (m <= n)%N) (keys o) ->
  insert_index o n k v = o ++ [(k, v)].
Proof.
  induction o as [|[k0 v0] o IH]; simpl; auto.
  intros Hall. inversion Hall as [|? ? [m [Hm Hle]] Hrest]; subst.
  rewrite Hm. assert (Hlt : (n <? m)%N = false) by (apply N.ltb_ge; exact Hle).
  rewrite Hlt. now rewrite IH.
Qed.

(** An object is rebuilt by writing its values under its keys in their
    order. *)
Lemma fill_row_rebuilds_from suf : forall pre,
  is_object (pre ++ suf) ->
  fill_row pre (keys suf) (length pre) (map snd (pre ++ suf)) = pre ++ suf.
Proof.
  induction suf as [|[k v] suf IH]; intros pre Hobj; simpl.
  - now rewrite app_nil_r.
  - destruct Hobj as [Hnd [Hproto Horder]].
    assert (Hvalue :
              value_at (map snd (pre ++ (k, v) :: suf)) (length pre) = v).
    { unfold value_at. rewrite map_app, nth_error_app2; rewrite length_map;
        [|lia]. rewrite Nat.sub_diag. simpl. now destruct v. }
    rewrite Hvalue.
    assert (Hassign : assign pre k v = pre ++ [(k, v)]).
    { unfold assign. destruct (jsstring_eq_dec k PROTO) as [->|_].
      - exfalso. apply Hproto. unfold keys. rewrite map_app, in_app_iff.
        right. now left.
      - unfold define.
        assert (Hfresh : ~ In k (keys pre)).
        { unfold keys in Hnd. rewrite map_app in Hnd. simpl in Hnd.
          apply NoDup_remove_2 in Hnd. rewrite in_app_iff in Hnd. tauto. }
        destruct (has pre k) eqn:Hhas; [apply has_In in Hhas; tauto|].
        destruct (array_index k) as [n|] eqn:Hk; [|reflexivity].
        apply insert_index_last.
        unfold keys in Horder. rewrite map_app in Horder. simpl in Horder.
        exact (enumerated_before_index (map fst pre) k (map fst suf) n
                 Horder Hk). }
    rewrite Hassign.
    replace (S (length pre)) with (length (pre ++ [(k, v)]))
      by (rewrite length_app; simpl; lia).
    replace (pre ++ (k, v) :: suf) with ((pre ++ [(k, v)]) ++ suf)
      by (now rewrite <- app_assoc).
    apply IH. rewrite <- app_assoc. simpl. repeat split; assumption.
Qed.

Lemma fill_row_rebuilds (row : Row) :
  is_object row -> fill_row [] (keys row) 0 (map snd row) = row.
Proof. intros Hobj. exact (fill_row_rebuilds_from row [] Hobj). Qed.

Lemma header_line_cells headers :
  headers <> [] ->
  Forall (fun h => plain_value h /\ trim h = h) headers ->
  cells (join [COMMA] headers) = headers.
Proof.
  intros Hsome Hplain. unfold cells. rewrite split_join; auto.
  - rewrite <- (map_id headers) at 2. apply map_ext_in. intros h Hh.
    rewrite Forall_forall in Hplain.
    destruct (Hplain h Hh) as [Hp Htrim].
    rewrite Htrim. now apply strip_quotes_plain.
  - eapply Forall_impl; [|exact Hplain].
    intros h [Hp _]. now apply plain_value_chars.
Qed.

Lemma header_line_not_blank headers :
  headers <> [] -> headers <> [[]] ->
  Forall (fun h => plain_value h /\ trim h = h) headers ->
  truthy (trim (join [COMMA] headers)) = true.
Proof.
  intros Hsome Hblank Hplain.
  destruct headers as [|h [|h' hs]]; [congruence| |].
  - simpl. inversion Hplain as [|? ? [_ Htrim] _]; subst.
    rewrite Htrim. destruct h; [congruence | reflexivity].
  - apply truthy_trim_In with (c := COMMA); [|reflexivity].
    rewrite join_cons2. rewrite !in_app_iff. right. left. now left.
Qed.

Lemma header_line_no_lf headers :
  Forall (fun h => plain_value h /\ trim h = h) headers ->
  ~ In LF (join [COMMA] headers).
Proof.
  intros Hplain Hin. apply In_join in Hin.
  destruct Hin as [[H|[]]|[h [Hh Hc]]].
  - discriminate H.
  - rewrite Forall_forall in Hplain.
    destruct (Hplain h Hh) as [Hp _].
    apply plain_value_chars in Hp. tauto.
Qed.

Section RoundTrip.

Context `{host : Host}.

Lemma data_line_values (row : Row) :
  NoDup (keys row) ->
  csv_line (keys row) row = join [COMMA] (map quoted (map snd row)).
Proof.
  intros Hnd. unfold csv_line, csv_value.
  rewrite <- (texts_under_own_keys row Hnd). now rewrite map_map.
Qed.

Lemma data_line_cells (row : Row) :
  NoDup (keys row) -> row <> [] -> Forall plain_value (map snd row) ->
  cells (csv_line (keys row) row) = map snd row.
Proof.
  intros Hnd Hne Hplain. rewrite data_line_values by assumption.
  unfold cells. rewrite split_join.
  - rewrite map_map. rewrite <- (map_id (map snd row)) at 2.
    apply map_ext_in. intros v Hv. rewrite Forall_forall in Hplain.
    rewrite trim_quoted. apply strip_quotes_quoted. auto.
  - destruct row; [congruence | discriminate].
  - apply Forall_forall. intros q Hq. apply in_map_iff in Hq.
    destruct Hq as [v [<- Hv]]. rewrite Forall_forall in Hplain.
    intros Hin. apply In_quoted_plain in Hin; auto.
    destruct Hin as [H|Hin]; [discriminate H|].
    destruct (plain_value_chars v (Hplain v Hv)) as [Hcomma _]. tauto.
Qed.

Lemma data_line_not_blank headers (row : Row) :
  headers <> [] -> truthy (trim (csv_line headers row)) = true.
Proof.
  intros Hsome. apply truthy_trim_In with (c := DQUOTE); [|reflexivity].
  unfold csv_line. destruct headers as [|h [|h' hs]]; [congruence| |].
  - simpl. now left.
  - simpl map. rewrite join_cons2, in_app_iff. left. now left.
Qed.

Lemma data_line_no_lf (row : Row) :
  NoDup (keys row) -> Forall plain_value (map snd row) ->
  ~ In LF (csv_line (keys row) row).
Proof.
  intros Hnd Hplain. rewrite data_line_values by assumption.
  intros Hin. apply In_join in Hin.
  destruct Hin as [[H|[]]|[q [Hq Hc]]]; [discriminate H|].
  apply in_map_iff in Hq. destruct Hq as [v [<- Hv]].
  rewrite Forall_forall in Hplain.
  apply In_quoted_plain in Hc; auto.
  destruct Hc as [H|Hc]; [discriminate H|].
  destruct (plain_value_chars v (Hplain v Hv)) as [_ [Hlf _]]. tauto.
Qed.

Lemma data_line_row (row : Row) :
  is_object row -> row <> [] -> Forall plain_value (map snd row) ->
  csv_row (keys row) (csv_line (keys row) row) = row.
Proof.
  intros Hobj Hne Hplain. unfold csv_row.
  rewrite data_line_cells; auto; [|apply Hobj].
  now apply fill_row_rebuilds.
Qed.

End RoundTrip.

Lemma filter_all {A} (p : A -> bool) (l : list A) :
  Forall (fun x => p x = true) l -> filter p l = l.
Proof.
  induction 1 as [|x l Hx Hl IH]; simpl; auto. now rewrite Hx, IH.
Qed.

(** The text exported from a table of plain rows is read back as the
    table. *)
Lemma plain_table_round_trip
  (host : Host) (first : Row) (rest : ExtractedData)
  (filename : jsstring) (out : console) :
  Forall is_object (first :: rest) ->
  Forall (fun row => keys row = keys first) (first :: rest) ->
  keys first <> [] ->
  keys first <> [[]] ->
  Forall (fun h => plain_value h /\ trim h = h) (keys first) ->
  Forall (fun row => Forall plain_value (map snd row)) (first :: rest) ->
  exists content,
    exportToCsv (first :: rest) filename
    = [Download (filename ++ js ".csv") content (js "text/csv;charset=utf-8;")]
    /\ extractDataFromCsv content out = (Resolve (first :: rest), out).
Proof.
  intros Hobj Hkeys Hsome Hblank Hheaders Hvalues.
  exists (csv_string first (first :: rest)). split; [reflexivity|].
  set (data := first :: rest) in *. set (headers := keys first) in *.
  assert (Hrow : forall row, In row data ->
            is_object row /\ keys row = headers /\ row <> []
            /\ Forall plain_value (map snd row)).
  { intros row Hin. rewrite Forall_forall in Hobj, Hkeys, Hvalues.
    repeat split; try (apply Hobj; assumption); auto.
    intros ->. specialize (Hkeys [] Hin). simpl in Hkeys.
    apply Hsome. symmetry. exact Hkeys. }
  assert (Hlines : nonblank_lines (csv_string first data)
                   = join [COMMA] headers :: map (csv_line headers) data).
  { unfold nonblank_lines, csv_string. fold headers. rewrite split_join.
    - apply filter_all. constructor.
      + now apply header_line_not_blank.
      + apply Forall_forall. intros line Hin. apply in_map_iff in Hin.
        destruct Hin as [row [<- _]]. now apply data_line_not_blank.
    - discriminate.
    - constructor.
      + now apply header_line_no_lf.
      + apply Forall_forall. intros line Hin. apply in_map_iff in Hin.
        destruct Hin as [row [<- Hin]].
        destruct (Hrow row Hin) as [[Hnd _] [<- [_ Hplain]]].
        now apply data_line_no_lf. }
  unfold extractDataFromCsv. rewrite Hlines.
  rewrite header_line_cells by assumption. do 2 f_equal.
  rewrite map_map. rewrite <- (map_id data) at 2.
  apply map_ext_in. intros row Hin.
  destruct (Hrow row Hin) as [Hobject [<- [Hne Hplain]]].
  now apply data_line_row.
Qed.

(** ** The downloaded text read again *)

Lemma list_pair_ind {A} (P : list A -> Prop) :
  P [] -> (forall a, P [a]) ->
  (forall a b l, P l -> P (b :: l) -> P (a :: b :: l)) ->
  forall l, P l.
Proof.
  intros Hnil Hone Hstep l.
  assert (H : P l /\ forall a, P (a :: l)).
  { induction l as [|b l [IH1 IH2]]; split; auto. }
  tauto.
Qed.

Lemma surrogate_not_both c :
  is_high_surrogate c = true -> is_low_surrogate c = false.
Proof.
  unfold is_high_surrogate, is_low_surrogate. intros H.
  apply andb_true_iff in H. destruct H as [_ H]. apply N.leb_le in H.
  apply andb_false_iff. left. apply N.leb_gt. lia.
Qed.

Lemma isWellFormed_app a : forall b,
  isWellFormed a = true -> isWellFormed (a ++ b) = isWellFormed b.
Proof.
  induction a as [|c|c d a IH1 IH2] using list_pair_ind; intros b Ha; auto.
  - simpl in *. destruct (is_high_surrogate c); [discriminate|].
    destruct (is_low_surrogate c); [discriminate|]. reflexivity.
  - change (isWellFormed ((c :: d :: a) ++ b))
      with (if is_high_surrogate c
            then is_low_surrogate d && isWellFormed (a ++ b)
            else negb (is_low_surrogate c) && isWellFormed ((d :: a) ++ b)).
    change (isWellFormed (c :: d :: a))
      with (if is_high_surrogate c
            then is_low_surrogate d && isWellFormed a
            else negb (is_low_surrogate c) && isWellFormed (d :: a)) in Ha.
    destruct (is_high_surrogate c).
    + apply andb_true_iff in Ha. destruct Ha as [-> Ha]. now rewrite IH1.
    + apply andb_true_iff in Ha. destruct Ha as [-> Ha]. now rewrite IH2.
Qed.

Lemma toWellFormed_app a : forall b,
  isWellFormed a = true -> toWellFormed (a ++ b) = a ++ toWellFormed b.
Proof.
  induction a as [|c|c d a IH1 IH2] using list_pair_ind; intros b Ha; auto.
  - simpl in *. destruct (is_high_surrogate c); [discriminate|].
    destruct (is_low_surrogate c); [discriminate|]. reflexivity.
  - change (toWellFormed ((c :: d :: a) ++ b))
      with (if is_high_surrogate c
            then if is_low_surrogate d
                 then c :: d :: toWellFormed (a ++ b)
                 else REPLACEMENT :: toWellFormed ((d :: a) ++ b)
            else if is_low_surrogate c
                 then REPLACEMENT :: toWellFormed ((d :: a) ++ b)
                 else c :: toWellFormed ((d :: a) ++ b)).
    change (isWellFormed (c :: d :: a))
      with (if is_high_surrogate c
            then is_low_surrogate d && isWellFormed a
            else negb (is_low_surrogate c) && isWellFormed (d :: a)) in Ha.
    destruct (is_high_surrogate c).
    + apply andb_true_iff in Ha. destruct Ha as [-> Ha]. now rewrite IH1.
    + apply andb_true_iff in Ha. destruct Ha as [Hc Ha].
      apply negb_true_iff in Hc. rewrite Hc. now rewrite IH2.
Qed.

Lemma toWellFormed_id s : isWellFormed s = true -> toWellFormed s = s.
Proof.
  intros Hs. rewrite <- (app_nil_r s) at 1.
  rewrite (toWellFormed_app s [] Hs). apply app_nil_r.
Qed.

Lemma isWellFormed_app_true a b :
  isWellFormed a = true -> isWellFormed b = true ->
  isWellFormed (a ++ b) = true.
Proof. intros Ha Hb. now rewrite isWellFormed_app. Qed.

Lemma isWellFormed_join sep pieces :
  isWellFormed sep = true ->
  Forall (fun piece => isWellFormed piece = true) pieces ->
  isWellFormed (join sep pieces) = true.
Proof.
  intros Hsep. induction 1 as [|piece pieces Hpiece _ IH]; auto.
  destruct pieces as [|piece' pieces]; [exact Hpiece|].
  change (join sep (piece :: piece' :: pieces))
    with (piece ++ sep ++ join sep (piece' :: pieces)).
  auto using isWellFormed_app_true.
Qed.

Lemma isWellFormed_quoted v :
  plain_value v -> isWellFormed v = true -> isWellFormed (quoted v) = true.
Proof.
  intros Hplain Hv. unfold quoted. rewrite escape_quotes_plain by assumption.
  change (DQUOTE :: v ++ [DQUOTE]) with ([DQUOTE] ++ v ++ [DQUOTE]).
  auto using isWellFormed_app_true.
Qed.

Lemma trim_head s :
  match trim s with
  | [] => True
  | c :: _ => is_white_space c = false
  end.
Proof.
  unfold trim. pose proof (trimStart_head s) as Hhead.
  destruct (trimStart s) as [|c t]; [exact I|].
  now rewrite (trimEnd_cons_nonws c t Hhead).
Qed.

Lemma header_line_head headers :
  headers <> [] -> headers <> [[]] ->
  Forall (fun h => plain_value h /\ trim h = h) headers ->
  exists c rest, join [COMMA] headers = c :: rest /\ c <> BOM.
Proof.
  intros Hsome Hblank Hheaders.
  destruct headers as [|h headers]; [congruence|].
  inversion Hheaders as [|? ? [_ Htrim] _]; subst.
  destruct h as [|c h].
  - destruct headers as [|h' headers]; [congruence|].
    exists COMMA, (join [COMMA] (h' :: headers)). split; [reflexivity|].
    discriminate.
  - pose proof (trim_head (c :: h)) as Hhead. rewrite Htrim in Hhead.
    exists c. destruct headers as [|h' headers].
    + exists h. split; [reflexivity|]. intros ->. discriminate Hhead.
    + exists (h ++ [COMMA] ++ join [COMMA] (h' :: headers)).
      split; [reflexivity|]. intros ->. discriminate Hhead.
Qed.

(** The text exported from a table of plain rows without a surrogate out of
    its pair is what a reader decodes from the downloaded file. *)
Lemma exported_text_survives_the_blob
  (host : Host) (first : Row) (rest : ExtractedData) :
  Forall is_object (first :: rest) ->
  Forall (fun row => keys row = keys first) (first :: rest) ->
  keys first <> [] ->
  keys first <> [[]] ->
  Forall (fun h => plain_value h /\ trim h = h) (keys first) ->
  Forall (fun row => Forall plain_value (map snd row)) (first :: rest) ->
  Forall (fun row =>
            Forall (fun kv => isWellFormed (fst kv) = true
                              /\ isWellFormed (snd kv) = true) row)
         (first :: rest) ->
  blob_text (csv_string first (first :: rest))
  = csv_string first (first :: rest).
Proof.
  intros Hobj Hkeys Hsome Hblank Hheaders Hvalues Hformed.
  assert (Hwf : isWellFormed (csv_string first (first :: rest)) = true).
  { unfold csv_string. apply isWellFormed_join; [reflexivity|]. constructor.
    - apply isWellFormed_join; [reflexivity|].
      inversion Hformed as [|? ? Hfirst _]; subst. unfold keys.
      apply Forall_map. eapply Forall_impl; [|exact Hfirst].
      intros kv [Hk _]. exact Hk.
    - rewrite Forall_forall in Hobj, Hkeys, Hvalues, Hformed.
      rewrite Forall_forall. intros line Hline.
      apply in_map_iff in Hline. destruct Hline as [row [<- Hin]].
      rewrite <- (Hkeys row Hin).
      rewrite data_line_values by (apply (Hobj row Hin)).
      apply isWellFormed_join; [reflexivity|].
      rewrite Forall_forall. intros piece Hpiece.
      apply in_map_iff in Hpiece. destruct Hpiece as [v [<- Hv]].
      pose proof (Hvalues row Hin) as Hplain.
      pose proof (Hformed row Hin) as Hrow.
      rewrite Forall_forall in Hplain, Hrow.
      apply isWellFormed_quoted; [now apply Hplain|].
      apply in_map_iff in Hv. destruct Hv as [kv [<- Hkv]].
      apply (Hrow kv Hkv). }
  unfold blob_text. rewrite (toWellFormed_id _ Hwf).
  destruct (header_line_head (keys first) Hsome Hblank Hheaders)
    as [c [line [Hline Hc]]].
  unfold csv_string.
  change (map (csv_line (keys first)) (first :: rest))
    with (csv_line (keys first) first :: map (csv_line (keys first)) rest).
  change (join [LF] (join [COMMA] (keys first)
                     :: csv_line (keys first) first
                     :: map (csv_line (keys first)) rest))
    with (join [COMMA] (keys first) ++ [LF]
          ++ join [LF] (csv_line (keys first) first
                        :: map (csv_line (keys first)) rest)).
  rewrite Hline. simpl.
  destruct (N.eqb_spec c BOM) as [Heq|_]; [contradiction | reflexivity].
Qed.

(** X7. A table whose rows all have the keys of the first row, in its
    order, is given back by the delimited-text extractor from the file that
    the delimited-text export downloads, when the key names are trimmed
    and hold no comma, quote or line feed, are not all empty, the values
    hold no comma, quote or line feed, and no key or value holds a
    surrogate out of its pair: the text decoded from the file is then the
    text exported. *)
Theorem export_then_import_gives_the_table
  (host : Host) (first : Row) (rest : ExtractedData)
  (filename : jsstring) (out : console) :
  Forall is_object (first :: rest) ->
  Forall (fun row => keys row = keys first) (first :: rest) ->
  keys first <> [] ->
  keys first <> [[]] ->
  Forall (fun h => plain_value h /\ trim h = h) (keys first) ->
  Forall (fun row => Forall plain_value (map snd row)) (first :: rest) ->
  Forall (fun row =>
            Forall (fun kv => isWellFormed (fst kv) = true
                              /\ isWellFormed (snd kv) = true) row)
         (first :: rest) ->
  exists content,
    exportToCsv (first :: rest) filename
    = [Download (filename ++ js ".csv") content (js "text/csv;charset=utf-8;")]
    /\ blob_text content = content
    /\ extractDataFromCsv (blob_text content) out
       = (Resolve (first :: rest), out).
Proof.
  intros Hobj Hkeys Hsome Hblank Hheaders Hvalues Hformed.
  destruct (plain_table_round_trip host first rest filename out
              Hobj Hkeys Hsome Hblank Hheaders Hvalues)
    as [content [Hexport Hextract]].
  exists content. split; [exact Hexport|].
  assert (Hcontent : blob_text content = content).
  { unfold exportToCsv in Hexport. injection Hexport as <-.
    now apply exported_text_survives_the_blob. }
  split; [exact Hcontent|]. rewrite Hcontent. exact Hextract.
Qed.

Lemma export_then_import_example :
  exists content,
    exportToCsv (host := reference_host)
      [[(js "name", js "Alice"); (js "age", js " 30")];
       [(js "name", js "Bob"); (js "age", [])]]
      (js "extracted_data")
    = [Download (js "extracted_data.csv") content
                (js "text/csv;charset=utf-8;")]
    /\ blob_text content = content
    /\ extractDataFromCsv (blob_text content) []
       = (Resolve [[(js "name", js "Alice"); (js "age", js " 30")];
                   [(js "name", js "Bob"); (js "age", [])]], []).
Proof.
  apply (export_then_import_gives_the_table reference_host
           [(js "name", js "Alice"); (js "age", js " 30")]
           [[(js "name", js "Bob"); (js "age", [])]]
           (js "extracted_data") []).
  - repeat constructor; simpl; intuition discriminate.
  - repeat constructor.
  - discriminate.
  - discriminate.
  - repeat constructor.
  - repeat constructor.
  - repeat constructor.
Defined.

(** A high surrogate without its partner, such as the pattern extractor
    captures with the pattern of one character from a line that starts with
    a character outside the basic plane, does not survive the file: it is
    read back as U+FFFD. *)
Lemma lone_surrogate_is_replaced :
  fst (extractDataFromText (engine := Fragment.engine)
         [55357%N; 56832%N] (js "c: (.)") [])
  = Resolve [[(js "c", [55357%N]); (LINE_NUMBER, js "1");
              (RAW_TEXT, [55357%N; 56832%N])]]
  /\ exists content,
       exportToCsv (host := reference_host)
         [[(js "c", [55357%N]); (LINE_NUMBER, js "1");
           (RAW_TEXT, [55357%N; 56832%N])]]
         (js "extracted_data")
       = [Download (js "extracted_data.csv") content
                   (js "text/csv;charset=utf-8;")]
       /\ extractDataFromCsv (blob_text content) []
          = (Resolve [[(js "c", [REPLACEMENT]); (LINE_NUMBER, js "1");
                       (RAW_TEXT, [55357%N; 56832%N])]], []).
Proof.
  split; [vm_compute; reflexivity|].
  eexists. split; [reflexivity|]. vm_compute. reflexivity.
Qed.

(** ** The rows of the extractors as objects *)

Lemma enumerated_before_plain k k' :
  array_index k' = None -> enumerated_before k k' = true.
Proof.
  intros H. unfold enumerated_before. rewrite H.
  now destruct (array_index k).
Qed.

Lemma enumeration_order_snoc ks k :
  enumeration_order ks = true ->
  (forall k', In k' ks -> enumerated_before k' k = true) ->
  enumeration_order (ks ++ [k]) = true.
Proof.
  induction ks as [|x ks IH]; simpl; intros Horder Hall; auto.
  apply andb_prop in Horder. destruct Horder as [Hx Hks].
  apply andb_true_intro. split.
  - rewrite forallb_app, Hx. simpl. rewrite Hall; auto.
  - apply IH; auto.
Qed.

Lemma enumeration_order_insert {V} (o : object V) n k v :
  array_index k = Some n ->
  enumeration_order (keys o) = true ->
  enumeration_order (keys (insert_index o n k v)) = true.
Proof.
  intros Hk. induction o as [|[k0 v0] o IH]; simpl; auto.
  intros Horder. pose proof Horder as Horder0.
  apply andb_prop in Horder. destruct Horder as [H0 Ho].
  assert (Hlater : forall k', In k' (keys o) -> enumerated_before k0 k' = true)
    by (apply forallb_forall; exact H0).
  destruct (array_index k0) as [n0|] eqn:Hk0.
  - destruct (n <? n0)%N eqn:Hlt.
    + simpl. rewrite Horder0. rewrite andb_true_r.
      apply andb_true_intro. split.
      * unfold enumerated_before. rewrite Hk, Hk0.
        apply N.leb_le. apply N.ltb_lt in Hlt. lia.
      * apply forallb_forall. intros k' Hin. specialize (Hlater k' Hin).
        unfold enumerated_before in *. rewrite Hk. rewrite Hk0 in Hlater.
        destruct (array_index k') as [n'|]; auto.
        apply N.leb_le. apply N.leb_le in Hlater. apply N.ltb_lt in Hlt. lia.
    + simpl. apply andb_true_intro. split; [|apply IH; exact Ho].
      apply forallb_forall. intros k' Hin.
      apply keys_insert_index in Hin. destruct Hin as [->|Hin]; auto.
      unfold enumerated_before. rewrite Hk0, Hk.
      apply N.leb_le. apply N.ltb_ge in Hlt. exact Hlt.
  - simpl. rewrite Horder0. rewrite andb_true_r.
    apply andb_true_intro. split.
    + unfold enumerated_before. now rewrite Hk, Hk0.
    + apply forallb_forall. intros k' Hin. specialize (Hlater k' Hin).
      unfold enumerated_before in *. rewrite Hk. rewrite Hk0 in Hlater.
      destruct (array_index k'); [discriminate | reflexivity].
Qed.

Lemma enumeration_order_define {V} (o : object V) k v :
  enumeration_order (keys o) = true ->
  enumeration_order (keys (define o k v)) = true.
Proof.
  intros Horder. unfold define. destruct (has o k).
  - now rewrite keys_replace_value.
  - destruct (array_index k) as [n|] eqn:Hk.
    + now apply enumeration_order_insert.
    + rewrite keys_app. simpl. apply enumeration_order_snoc; auto.
      intros k' _. now apply enumerated_before_plain.
Qed.

(** Every assignment keeps a row an object. *)
Lemma is_object_assign (row : Row) k v :
  is_object row -> is_object (assign row k v).
Proof.
  intros [Hnd [Hproto Horder]]. repeat split.
  - now apply NoDup_assign.
  - rewrite keys_assign. intros [[Heq Hne]|Hin]; [congruence | tauto].
  - unfold assign. destruct (jsstring_eq_dec k PROTO); auto.
    now apply enumeration_order_define.
Qed.

Lemma is_object_nil : is_object [].
Proof. repeat split; [constructor | simpl; tauto]. Qed.

Lemma is_object_fill_row headers : forall row index values,
  is_object row -> is_object (fill_row row headers index values).
Proof.
  induction headers as [|h hs IH]; simpl; auto.
  intros row index values Hobj. apply IH. now apply is_object_assign.
Qed.

Lemma keys_insert_index_congr {V W} (o : object V) (o' : object W) n k v w :
  keys o = keys o' ->
  keys (insert_index o n k v) = keys (insert_index o' n k w).
Proof.
  revert o'. induction o as [|[k0 v0] o IH]; intros [|[k1 w1] o'];
    simpl; try discriminate; auto.
  intros [= <- Hkeys]. destruct (array_index k0) as [n0|].
  - destruct (n <? n0)%N; simpl; f_equal; auto. now f_equal.
  - simpl. now do 2 f_equal.
Qed.

Lemma keys_define_congr {V W} (o : object V) (o' : object W) k v w :
  keys o = keys o' -> keys (define o k v) = keys (define o' k w).
Proof.
  intros Hkeys. unfold define.
  assert (Hhas : has o k = has o' k).
  { destruct (has o k) eqn:H1, (has o' k) eqn:H2; auto.
    - apply has_In in H1. rewrite Hkeys in H1. apply has_In in H1. congruence.
    - apply has_In in H2. rewrite <- Hkeys in H2. apply has_In in H2.
      congruence. }
  rewrite <- Hhas. destruct (has o k).
  - now rewrite !keys_replace_value.
  - destruct (array_index k) as [n|].
    + now apply keys_insert_index_congr.
    + rewrite !keys_app. simpl. now rewrite Hkeys.
Qed.

(** The keys of a row of the delimited-text extractor depend on the header
    names only. *)
Lemma keys_fill_row_congr headers : forall row row' index values values',
  keys row = keys row' ->
  keys (fill_row row headers index values)
  = keys (fill_row row' headers index values').
Proof.
  induction headers as [|h hs IH]; simpl; auto.
  intros row row' index values values' Hkeys. apply IH.
  unfold assign. destruct (jsstring_eq_dec h PROTO); auto.
  now apply keys_define_congr.
Qed.

Lemma In_assign (row : Row) k v e :
  In e (assign row k v) -> e = (k, v) \/ In e row.
Proof.
  unfold assign. destruct (jsstring_eq_dec k PROTO); auto.
  apply In_define.
Qed.

Lemma fill_row_values (P : jsstring -> Prop) headers :
  forall row index values,
    P [] -> Forall P values -> Forall P (map snd row) ->
    Forall P (map snd (fill_row row headers index values)).
Proof.
  induction headers as [|h hs IH]; simpl; auto.
  intros row index values Hnil Hvalues Hrow. apply IH; auto.
  apply Forall_forall. intros x Hx. apply in_map_iff in Hx.
  destruct Hx as [e [<- He]]. apply In_assign in He.
  destruct He as [->|He].
  - simpl. unfold value_at.
    destruct (nth_error values index) as [v|] eqn:Hnth; auto.
    destruct (truthy v); auto.
    rewrite Forall_forall in Hvalues. apply Hvalues.
    eapply nth_error_In; eauto.
  - rewrite Forall_forall in Hrow. apply Hrow. now apply in_map.
Qed.

Lemma In_strip_quotes c s : In c (strip_quotes s) -> In c s /\ c <> DQUOTE.
Proof.
  unfold strip_quotes. intros Hin. apply filter_In in Hin.
  destruct Hin as [Hin Hc]. split; auto.
  intros ->. discriminate Hc.
Qed.

(** The cells of a line hold no comma, no quote and no line feed. *)
Lemma cells_plain line : ~ In LF line -> Forall plain_value (cells line).
Proof.
  intros Hlf. unfold cells. apply Forall_forall. intros cell Hcell.
  apply in_map_iff in Hcell. destruct Hcell as [piece [<- Hpiece]].
  unfold plain_value. apply forallb_forall. intros c Hc.
  apply In_strip_quotes in Hc. destruct Hc as [Hc Hquote].
  apply In_trim in Hc.
  pose proof (split_pieces_no_sep COMMA line) as Hsep.
  rewrite Forall_forall in Hsep. specialize (Hsep piece Hpiece).
  pose proof (In_split_piece COMMA line piece c Hpiece Hc) as Hline.
  unfold plain_char. apply negb_true_iff.
  apply orb_false_iff. split; [apply orb_false_iff; split|];
    apply N.eqb_neq; congruence.
Qed.

Lemma nonblank_lines_no_lf text line :
  In line (nonblank_lines text) -> ~ In LF line.
Proof.
  unfold nonblank_lines. intros Hin. apply filter_In in Hin.
  destruct Hin as [Hin _].
  pose proof (split_pieces_no_sep LF text) as Hsep.
  rewrite Forall_forall in Hsep. now apply Hsep.
Qed.

(** X8. A table that the delimited-text extractor produced is given back
    by the extractor from its own export, when the key names of its first
    row are trimmed and are not all empty. *)
Theorem imported_table_survives_export
  (host : Host) (text : jsstring) (out out' : console)
  (first : Row) (rest : ExtractedData) (filename : jsstring) :
  fst (extractDataFromCsv text out) = Resolve (first :: rest) ->
  keys first <> [] ->
  keys first <> [[]] ->
  Forall (fun h => trim h = h) (keys first) ->
  exists content,
    exportToCsv (first :: rest) filename
    = [Download (filename ++ js ".csv") content (js "text/csv;charset=utf-8;")]
    /\ extractDataFromCsv content out' = (Resolve (first :: rest), out').
Proof.
  rewrite extractDataFromCsv_fst.
  destruct (nonblank_lines text) as [|header lines] eqn:Hlines; [discriminate|].
  intros [= Hdata] Hsome Hblank Htrim.
  assert (Hheader : Forall plain_value (cells header)).
  { apply cells_plain. apply (nonblank_lines_no_lf text).
    rewrite Hlines. now left. }
  assert (Hrow : forall row, In row (first :: rest) ->
            is_object row /\ keys row = keys first
            /\ Forall plain_value (map snd row)
            /\ Forall plain_value (keys row)).
  { intros row Hin. rewrite <- Hdata in Hin.
    assert (Hfirst : In first (map (csv_row (cells header)) lines))
      by (rewrite Hdata; now left).
    apply in_map_iff in Hin. destruct Hin as [line [<- Hline]].
    apply in_map_iff in Hfirst. destruct Hfirst as [line1 [<- _]].
    unfold csv_row. repeat split.
    - apply NoDup_fill_row. constructor.
    - rewrite keys_fill_row. simpl. tauto.
    - apply is_object_fill_row, is_object_nil.
    - now apply keys_fill_row_congr.
    - apply fill_row_values; [reflexivity| |constructor].
      apply cells_plain. apply (nonblank_lines_no_lf text).
      rewrite Hlines. now right.
    - apply Forall_forall. intros k Hk. apply keys_fill_row in Hk.
      rewrite Forall_forall in Hheader. simpl in Hk.
      destruct Hk as [[]|[Hk _]]. auto. }
  apply plain_table_round_trip; auto.
  - apply Forall_forall. intros row Hin. apply (Hrow row Hin).
  - apply Forall_forall. intros row Hin. apply (Hrow row Hin).
  - destruct (Hrow first (or_introl eq_refl)) as [_ [_ [_ Hplain]]].
    rewrite Forall_forall in *. auto.
  - apply Forall_forall. intros row Hin. apply (Hrow row Hin).
Qed.

Lemma imported_table_survives_export_example :
  exists content,
    exportToCsv (host := reference_host)
      [[(js "name", js "Alice"); (js "age", js "30")];
       [(js "name", js "Bob"); (js "age", [])]]
      (js "extracted_data")
    = [Download (js "extracted_data.csv") content
                (js "text/csv;charset=utf-8;")]
    /\ extractDataFromCsv content []
       = (Resolve [[(js "name", js "Alice"); (js "age", js "30")];
                   [(js "name", js "Bob"); (js "age", [])]], []).
Proof.
  apply (imported_table_survives_export reference_host
           (join_lines [js "name , age"; js "Alice, 30, x"; js "Bob"]) [] []
           [(js "name", js "Alice"); (js "age", js "30")]
           [[(js "name", js "Bob"); (js "age", [])]]
           (js "extracted_data")).
  - vm_compute. reflexivity.
  - discriminate.
  - discriminate.
  - repeat constructor.
Defined.

(** ** The page *)

Section Page.

Context `{engine : RegExpEngine} `{host : Host}.

Lemma sound_intro st :
  (forall f, App.file st = Some f -> (file_size f <= App.SIZE_LIMIT)%N) ->
  App.isLoading st = false ->
  (forall data, App.extractedData st = Some data ->
                data <> [] /\ App.error st = None) ->
  sound st.
Proof.
  intros Hsize Hload Hdata. repeat split; auto.
  destruct (App.extractedData st) as [data|]; auto.
Qed.

Lemma handleExtract_sound st out :
  sound st -> App.extractedData st = None ->
  sound (fst (App.handleExtract st out)).
Proof.
  intros [Hsize [Hload Hdata]] Hnone. unfold App.handleExtract.
  destruct (App.file st) as [f|] eqn:Hfile.
  - assert (Hf : forall f', Some f = Some f' ->
                            (file_size f' <= App.SIZE_LIMIT)%N)
      by (intros f' Heq; apply Hsize; congruence).
    destruct (negb (truthy (App.prompt st))).
    + apply sound_intro; simpl; auto.
      rewrite Hnone. discriminate.
    + destruct (App.extract f (App.prompt st) out) as [[[|row rows]|[e|]] out'];
        apply sound_intro; simpl; auto; try discriminate.
      intros data [= <-]. split; [discriminate | reflexivity].
  - apply sound_intro; simpl; auto; rewrite ?Hnone; intros; discriminate.
Qed.

Lemma reachable_sound st : App.reachable st -> sound st.
Proof.
  induction 1 as [|st w e Hreach IH Hoffered].
  - apply sound_intro; simpl; auto; discriminate.
  - pose proof IH as [Hsize [Hload Hdata]].
    destruct e; simpl in *.
    + unfold App.form_shown in Hoffered.
      destruct (App.extractedData st) eqn:Hnone; [discriminate|].
      destruct selected as [f|]; simpl; [|exact IH].
      destruct (App.SIZE_LIMIT <? file_size f)%N eqn:Hlimit;
        apply sound_intro; simpl; auto; try discriminate.
      * rewrite Hnone. discriminate.
      * intros f' [= <-]. now apply N.ltb_ge.
    + apply sound_intro; simpl; auto.
      intros data Hsome. rewrite Hsome in Hdata. exact Hdata.
    + unfold App.form_shown in Hoffered.
      destruct (App.extractedData st) eqn:Hnone; [discriminate|].
      pose proof (handleExtract_sound st (App.out w) IH Hnone) as Hsound.
      destruct (App.handleExtract st (App.out w)) as [st' out'].
      exact Hsound.
    + apply sound_intro; simpl; auto; discriminate.
    + exact IH.
    + exact IH.
    + exact IH.
Qed.

Lemma forEach_rows_nil patternMap lines index :
  forEach_rows patternMap index lines = [] <->
  existsb (fun line => existsb (matches line) patternMap) lines = false.
Proof.
  revert index. induction lines as [|line lines IH]; simpl; intros index.
  - tauto.
  - destruct (line_rows_cases patternMap index line) as [[Hm ->]|[Hm ->]];
      rewrite Hm; simpl.
    + apply IH.
    + split; discriminate.
Qed.

End Page.

(** X9. In every state that the page can reach from its initial state by
    the events it offers, the file kept is at most 20 MB large, nothing is
    loading, and a table kept is never empty and never shown together with
    an error message. *)
Theorem page_states_are_sound
  (engine : RegExpEngine) (host : Host) (st : App.State) :
  App.reachable st ->
  (forall f, App.file st = Some f -> (file_size f <= 20 * 1024 * 1024)%N)
  /\ App.isLoading st = false
  /\ (forall data,
        App.extractedData st = Some data ->
        data <> [] /\ App.error st = None).
Proof.
  intros Hreach. destruct (reachable_sound st Hreach) as [Hsize [Hload Hdata]].
  split; [exact Hsize|]. split; [exact Hload|].
  intros data Hsome. rewrite Hsome in Hdata. exact Hdata.
Qed.

Lemma sample_state_reachable :
  App.reachable (engine := Fragment.engine) (host := reference_host)
                sample_state.
Proof.
  unfold sample_state.
  apply App.reachable_step; [|reflexivity].
  apply App.reachable_step; [apply App.reachable_initial | reflexivity].
Defined.

Lemma page_states_are_sound_example :
  (forall f,
     App.file sample_state = Some f ->
     (file_size f <= 20 * 1024 * 1024)%N)
  /\ App.isLoading sample_state = false
  /\ (forall data,
        App.extractedData sample_state
        = Some data ->
        data <> []
        /\ App.error sample_state = None).
Proof.
  apply (page_states_are_sound Fragment.engine reference_host).
  exact sample_state_reachable.
Defined.

(** X10. Every export that the page offers in a reachable state acts on a
    table with a first row: the delimited-text export and the report are
    downloaded, and the spreadsheet is written or, without the library, the
    user is told. The exporters' silent return on an empty table is never
    taken from the page. *)
Theorem offered_exports_act
  (engine : RegExpEngine) (host : Host) (st : App.State) (w : App.World)
  (e : App.event) :
  App.reachable st ->
  App.offered st e = true ->
  e = App.ClickCsv \/ e = App.ClickExcel \/ e = App.ClickWord ->
  exists first rest,
    App.extractedData st = Some (first :: rest)
    /\ fst (fst (App.handle w st e)) = st
    /\ snd (fst (App.handle w st e))
       = match e with
         | App.ClickCsv =>
             [Download (js "extracted_data.csv")
                       (csv_string first (first :: rest))
                       (js "text/csv;charset=utf-8;")]
         | App.ClickWord =>
             [Download (js "extracted_data.rtf")
                       (createRTFContent (App.now w) (first :: rest)
                                         (keys first))
                       (js "application/rtf")]
         | _ =>
             if App.xlsx_loaded w
             then [WriteWorkbook (first :: rest) (js "Data")
                                 (js "extracted_data.xlsx")]
             else [Alert
                     (js "XLSX library is not loaded. Cannot export to Excel.");
                   ConsoleError
                     (js "SheetJS (XLSX) library not found on window object.")]
         end.
Proof.
  intros Hreach Hoffered He.
  destruct (reachable_sound st Hreach) as [_ [_ Hdata]].
  assert (Hshown : App.data_shown st = true)
    by (destruct He as [->|[->| ->]]; exact Hoffered).
  unfold App.data_shown in Hshown.
  destruct (App.extractedData st) as [[|first rest]|] eqn:Hsome;
    [destruct Hdata; congruence| |discriminate].
  exists first, rest. split; [reflexivity|].
  destruct He as [->|[->| ->]]; simpl; rewrite Hsome; auto.
Qed.

Lemma offered_exports_act_example :
  exists first rest,
    App.extractedData sample_state
    = Some (first :: rest)
    /\ fst (fst (App.handle (engine := Fragment.engine)
                            (host := reference_host) sample_world
                            sample_state App.ClickCsv))
       = sample_state
    /\ snd (fst (App.handle (engine := Fragment.engine)
                            (host := reference_host) sample_world
                            sample_state App.ClickCsv))
       = [Download (js "extracted_data.csv")
                   (csv_string (host := reference_host) first (first :: rest))
                   (js "text/csv;charset=utf-8;")].
Proof.
  apply (offered_exports_act Fragment.engine reference_host
           sample_state sample_world App.ClickCsv).
  - exact sample_state_reachable.
  - vm_compute. reflexivity.
  - left. reflexivity.
Defined.

(** X11. What the user sees after extracting from a readable file whose
    lower-cased name ends with [.csv]: the empty-file message when no line
    is left, the no-data message when only the header line is left, and
    otherwise the table of the lines after the header. The instructions are
    not used. *)
Theorem extract_from_delimited_file
  (engine : RegExpEngine) (host : Host) (st : App.State) (f : File)
  (text : jsstring) (out : console) :
  App.file st = Some f ->
  truthy (App.prompt st) = true ->
  endsWith (toLowerCase (file_name f)) (js ".csv") = true ->
  file_text f = Some text ->
  match nonblank_lines text with
  | [] =>
      App.extractedData (fst (App.handleExtract st out)) = None
      /\ App.error (fst (App.handleExtract st out))
         = Some (js "Empty CSV file")
  | [header] =>
      App.extractedData (fst (App.handleExtract st out)) = None
      /\ App.error (fst (App.handleExtract st out)) = Some App.NO_DATA
  | header :: line :: lines =>
      App.extractedData (fst (App.handleExtract st out))
      = Some (map (csv_row (cells header)) (line :: lines))
      /\ App.error (fst (App.handleExtract st out)) = None
  end.
Proof.
  intros Hfile Hprompt Hcsv Htext.
  unfold App.handleExtract, App.extract, read_with, extractDataFromCsv.
  rewrite Hfile, Hprompt, Hcsv, Htext. simpl negb. cbv iota.
  destruct (nonblank_lines text) as [|header [|line lines]]; simpl; auto.
Qed.

Lemma extract_from_delimited_file_example :
  App.extractedData sample_state
  = Some (map (csv_row (cells (js "name,age"))) [js "Alice,30"; js "Bob,25"])
  /\ App.error sample_state = None.
Proof.
  apply (extract_from_delimited_file Fragment.engine reference_host
           (fst (fst (App.handle (engine := Fragment.engine)
                        (host := reference_host) sample_world App.initial
                        (App.ChangeFile (Some sample_file)))))
           sample_file
           (join_lines [js "name,age"; js "Alice,30"; js "Bob,25"]) []);
    reflexivity.
Defined.

(** X12. What the user sees after extracting from any other readable file:
    the empty-file message when no line is left, the no-data message when
    no entry of the parsed map matches any line, and otherwise the rows of
    the matching lines, at least one. Parsing the instructions never makes
    the extraction fail. *)
Theorem extract_from_text_file
  (engine : RegExpEngine) (host : Host) (st : App.State) (f : File)
  (text : jsstring) (out : console) :
  App.file st = Some f ->
  truthy (App.prompt st) = true ->
  endsWith (toLowerCase (file_name f)) (js ".csv") = false ->
  file_text f = Some text ->
  match nonblank_lines text with
  | [] =>
      App.extractedData (fst (App.handleExtract st out)) = None
      /\ App.error (fst (App.handleExtract st out)) = Some (js "Empty file")
  | lines =>
      exists patternMap,
        fst (parsePatterns (App.prompt st) out) = Normal patternMap
        /\ if existsb (fun line => existsb (matches line) patternMap) lines
           then
             App.extractedData (fst (App.handleExtract st out))
             = Some (forEach_rows patternMap 0 lines)
             /\ forEach_rows patternMap 0 lines <> []
             /\ App.error (fst (App.handleExtract st out)) = None
           else
             App.extractedData (fst (App.handleExtract st out)) = None
             /\ App.error (fst (App.handleExtract st out))
                = Some App.NO_DATA
  end.
Proof.
  intros Hfile Hprompt Hcsv Htext.
  unfold App.handleExtract, App.extract, read_with, extractDataFromText.
  rewrite Hfile, Hprompt, Hcsv, Htext. simpl negb. cbv iota.
  destruct (nonblank_lines text) as [|line lines] eqn:Hlines; [simpl; auto|].
  destruct (parsePatterns_normal (App.prompt st) out) as [pm [Hpm _]].
  exists pm. split; [exact Hpm|].
  destruct (parsePatterns (App.prompt st) out) as [[pm'|e] out'];
    simpl in Hpm; [|discriminate]. injection Hpm as ->.
  pose proof (forEach_rows_nil pm (line :: lines) 0) as Hnil.
  destruct (existsb (fun l => existsb (matches l) pm) (line :: lines)).
  - destruct (forEach_rows pm 0 (line :: lines)) as [|row rows] eqn:Hrows.
    + destruct Hnil as [Hnil _]. discriminate (Hnil eq_refl).
    + simpl. repeat split. discriminate.
  - destruct Hnil as [_ Hnil]. rewrite (Hnil eq_refl). simpl. auto.
Qed.

Lemma extract_from_text_file_example :
  App.extractedData
    (fst (App.handleExtract (engine := Fragment.engine)
            (host := reference_host) sample_notes_state []))
  = None
  /\ App.error
       (fst (App.handleExtract (engine := Fragment.engine)
               (host := reference_host) sample_notes_state []))
     = Some App.NO_DATA.
Proof.
  destruct (extract_from_text_file Fragment.engine reference_host
              sample_notes_state sample_notes (js "no digits here") []
              eq_refl eq_refl eq_refl eq_refl)
    as [patternMap [Hparse Hcases]].
  vm_compute in Hparse. injection Hparse as <-.
  exact Hcases.
Defined.

(** ** The answer of the model service *)


(** ** The report *)

Lemma occurs_in_refl piece : occurs_in piece piece.
Proof. exists [], []. now rewrite app_nil_r. Qed.

Lemma occurs_in_app_l piece a b : occurs_in piece a -> occurs_in piece (a ++ b).
Proof.
  intros [before [after ->]]. exists before, (after ++ b).
  now rewrite <- !app_assoc.
Qed.

Lemma occurs_in_app_r piece a b : occurs_in piece b -> occurs_in piece (a ++ b).
Proof.
  intros [before [after ->]]. exists (a ++ before), after.
  now rewrite <- !app_assoc.
Qed.

Lemma occurs_in_concat piece pieces :
  In piece pieces -> occurs_in piece (concat pieces).
Proof.
  induction pieces as [|p rest IH]; simpl; [tauto|].
  intros [->|Hin].
  - apply occurs_in_app_l, occurs_in_refl.
  - apply occurs_in_app_r. auto.
Qed.

Section Report.

Context `{host : Host}.

Lemma rtf_records_record headers data : forall start i row,
  nth_error data i = Some row ->
  occurs_in (rtf_record headers (start + i) row)
            (rtf_records headers start data).
Proof.
  induction data as [|first rest IH]; intros start [|i] row Hnth;
    simpl in Hnth; try discriminate.
  - injection Hnth as ->. rewrite Nat.add_0_r.
    change (rtf_records headers start (row :: rest))
      with (rtf_record headers start row
              ++ rtf_records headers (S start) rest).
    apply occurs_in_app_l, occurs_in_refl.
  - change (rtf_records headers start (first :: rest))
      with (rtf_record headers start first
              ++ rtf_records headers (S start) rest).
    apply occurs_in_app_r.
    replace (start + S i) with (S start + i) by lia. now apply IH.
Qed.

Lemma occurs_in_trans a b c : occurs_in a b -> occurs_in b c -> occurs_in a c.
Proof.
  intros [b1 [b2 ->]] [c1 [c2 ->]]. exists (c1 ++ b1), (b2 ++ c2).
  now rewrite <- !app_assoc.
Qed.

End Report.


